(** * gadb: the device session layer (device.go)

    A shallow embedding of [device.go] of the gadb client for the Android
    Debug Bridge.  The pure helpers ([IsDir], [deviceStateConv], the command
    strings) are Rocq functions.  The operations that talk to the adb server
    are interaction trees over the calls that [device.go] makes into the
    transport layer ([NewTransport], [Transport.Send], the sync transport,
    [Client.executeCommand]); these callees live in other files of the
    package, so they are events whose answers the peer side chooses.  A run
    of an operation is a finite list of calls with their answers, ending in
    the values the Go function returns. *)

From Stdlib Require Import ZArith String List Ascii DecimalString Lia Bool.
From stdpp Require Import base strings gmap.
From ITree Require Import ITree.
Import ListNotations.
Local Open Scope string_scope.
Local Open Scope Z_scope.
Local Open Scope list_scope.

(** Sequencing of calls; a local notation, since the one of the ITree
    library shares a level with stdpp's. *)
Notation "x <- t ;; k" := (ITree.bind t (fun x => k))
  (at level 100, t at next level, right associativity).

(** ** Go values *)

(** An [error] is nil ([None]) or carries its message. *)
Definition error := option string.

(** A slice is nil ([None]) or has elements; [append] allocates on nil. *)
Definition slice (A : Type) := option (list A).

Definition append {A : Type} (s : slice A) (x : A) : slice A :=
  match s with
  | None => Some [x]
  | Some l => Some (l ++ [x])
  end.

(** [[]byte]: the bytes are the characters of a string. *)
Definition bytes := option string.

(** [string(raw)] *)
Definition string_of_bytes (raw : bytes) : string :=
  match raw with
  | None => ""
  | Some s => s
  end.

(** Fixed-width integers are [Z] with the wrap-around written out. *)
Definition wrap_uint32 (z : Z) : Z := z mod 2 ^ 32.
Definition wrap_uint64 (z : Z) : Z := z mod 2 ^ 64.
Definition wrap_int64 (z : Z) : Z := (z + 2 ^ 63) mod 2 ^ 64 - 2 ^ 63.

(** [fmt.Sprintf("%d", n)] for an integer: decimal digits, a minus sign
    for negative values. *)
Definition fmt_d (n : Z) : string := NilZero.string_of_int (Z.to_int n).

(** [strings.Join(elems, sep)] *)
Fixpoint Join (elems : list string) (sep : string) : string :=
  match elems with
  | [] => ""
  | [e] => e
  | e :: rest => e +:+ sep +:+ Join rest sep
  end.

(** ** time.Time

    The standard library's struct: the wall clock word, the extended
    seconds and the location pointer.  [==] on structs compares the three
    fields. *)
Record Time := mkTime {
  wall : Z;            (* uint64 *)
  ext : Z;             (* int64 *)
  loc : option positive (* *Location; None is nil *)
}.

Definition zeroTime : Time := mkTime 0 0 None.

Definition Time_eqb (a b : Time) : bool :=
  (wall a =? wall b) && (ext a =? ext b) &&
  match loc a, loc b with
  | None, None => true
  | Some p, Some q => Pos.eqb p q
  | _, _ => false
  end.

Definition hasMonotonic : Z := Z.shiftl 1 63.
Definition nsecShift : Z := 30.
Definition secondsPerDay : Z := 86400.
Definition unixToInternal : Z :=
  (1969 * 365 + 1969 / 4 - 1969 / 100 + 1969 / 400) * secondsPerDay.
Definition internalToUnix : Z := - unixToInternal.
Definition wallToInternal : Z :=
  (1884 * 365 + 1884 / 4 - 1884 / 100 + 1884 / 400) * secondsPerDay.

(** [t.sec()]: seconds since year 1. *)
Definition Time_sec (t : Time) : Z :=
  if negb (Z.land (wall t) hasMonotonic =? 0)
  then wrap_int64 (wallToInternal +
         Z.shiftr (wrap_uint64 (Z.shiftl (wall t) 1)) (nsecShift + 1))
  else ext t.

(** [t.Unix()]: an int64 of seconds since 1970. *)
Definition Unix (t : Time) : Z := wrap_int64 (Time_sec t + internalToUnix).

(** ** DeviceFileInfo *)

Record DeviceFileInfo := mkDeviceFileInfo {
  Name : string;
  Mode : Z;             (* os.FileMode, a uint32 *)
  Size : Z;             (* uint32 *)
  LastModified : Time
}.

(** [DeviceFileInfo{}] *)
Definition zeroDeviceFileInfo : DeviceFileInfo :=
  mkDeviceFileInfo "" 0 0 zeroTime.

(** [a == b] on the struct. *)
Definition DeviceFileInfo_eqb (a b : DeviceFileInfo) : bool :=
  String.eqb (Name a) (Name b) && (Mode a =? Mode b) && (Size a =? Size b) &&
  Time_eqb (LastModified a) (LastModified b).

Definition IsDir (info : DeviceFileInfo) : bool :=
  Z.land (Mode info) (Z.shiftl 1 14) =? Z.shiftl 1 14.

(** [os.FileMode(0664)], an octal literal. *)
Definition DefaultFileMode : Z := 6 * 8 * 8 + 6 * 8 + 4.

(** ** strings.TrimSpace

    Go strings are byte sequences; [TrimSpace] removes the leading and
    trailing runes that [unicode.IsSpace] accepts, decoding UTF-8 as
    [utf8.DecodeRuneInString] and [utf8.DecodeLastRuneInString] do (an
    invalid byte decodes to U+FFFD of width 1, which is not a space). *)

Definition byte_of (a : ascii) : Z := Z.of_N (N_of_ascii a).
Definition ascii_of (b : Z) : ascii := ascii_of_N (Z.to_N b).

Definition RuneError : Z := 65533.
Definition RuneSelf : Z := 128.
Definition UTFMax : nat := 4.

(** The table [first] of package utf8: the low three bits are the width
    of the sequence the byte starts, the high four select the range
    accepted for the second byte; 240 marks ASCII, 241 an invalid byte. *)
Definition first (b : Z) : Z :=
  if b <? 128 then 240
  else if b <? 194 then 241
  else if b <? 224 then 2
  else if b =? 224 then 19
  else if b <? 237 then 3
  else if b =? 237 then 35
  else if b <? 240 then 3
  else if b =? 240 then 52
  else if b <? 244 then 4
  else if b =? 244 then 68
  else 241.

(** [acceptRanges]: bounds on the second byte. *)
Definition acceptRanges (i : Z) : Z * Z :=
  if i =? 0 then (128, 191)
  else if i =? 1 then (160, 191)
  else if i =? 2 then (128, 159)
  else if i =? 3 then (144, 191)
  else if i =? 4 then (128, 143)
  else (0, 0).

Definition locb : Z := 128.
Definition hicb : Z := 191.
Definition continuation (b : Z) : bool := (locb <=? b) && (b <=? hicb).

(** [utf8.DecodeRuneInString]: the first rune of [s] and its width. *)
Definition DecodeRuneInString (s : list Z) : Z * nat :=
  match s with
  | [] => (RuneError, 0%nat)
  | s0 :: t0 =>
    let x := first s0 in
    if 240 <=? x then ((if x =? 240 then s0 else RuneError), 1%nat)
    else
      let sz := Z.land x 7 in
      let accept := acceptRanges (Z.shiftr x 4) in
      if (Z.of_nat (length s) <? sz) then (RuneError, 1%nat)
      else match t0 with
      | [] => (RuneError, 1%nat)
      | s1 :: t1 =>
        if (s1 <? fst accept) || (snd accept <? s1) then (RuneError, 1%nat)
        else if sz <=? 2
        then (Z.lor (Z.shiftl (Z.land s0 31) 6) (Z.land s1 63), 2%nat)
        else match t1 with
        | [] => (RuneError, 1%nat)
        | s2 :: t2 =>
          if negb (continuation s2) then (RuneError, 1%nat)
          else if sz <=? 3
          then (Z.lor (Z.lor (Z.shiftl (Z.land s0 15) 12)
                             (Z.shiftl (Z.land s1 63) 6))
                      (Z.land s2 63), 3%nat)
          else match t2 with
          | [] => (RuneError, 1%nat)
          | s3 :: _ =>
            if negb (continuation s3) then (RuneError, 1%nat)
            else (Z.lor (Z.lor (Z.lor (Z.shiftl (Z.land s0 7) 18)
                                      (Z.shiftl (Z.land s1 63) 12))
                               (Z.shiftl (Z.land s2 63) 6))
                        (Z.land s3 63), 4%nat)
          end
        end
      end
  end.

(** [utf8.RuneStart] *)
Definition RuneStart (b : Z) : bool := negb (Z.land b 192 =? 128).

(** The backwards search of [DecodeLastRuneInString]: from index [start]
    (already decremented once) down to [lim], stop at a byte that can
    start a rune; the result is -1 or [lim - 1] when none is found. *)
Fixpoint lastRuneStart (n : nat) (s : list Z) (start lim : Z) : Z :=
  match n with
  | O => start
  | S n' =>
    if start <? lim then start
    else if RuneStart (nth (Z.to_nat start) s 0) then start
    else lastRuneStart n' s (start - 1) lim
  end.

(** [utf8.DecodeLastRuneInString]: the last rune of [s] and its width. *)
Definition DecodeLastRuneInString (s : list Z) : Z * nat :=
  let end_ := Z.of_nat (length s) in
  if end_ =? 0 then (RuneError, 0%nat)
  else
    let start := end_ - 1 in
    let r := nth (Z.to_nat start) s 0 in
    if r <? RuneSelf then (r, 1%nat)
    else
      let lim := Z.max 0 (end_ - Z.of_nat UTFMax) in
      let start := lastRuneStart UTFMax s (start - 1) lim in
      let start := Z.max 0 start in
      let (r, size) := DecodeRuneInString (skipn (Z.to_nat start) s) in
      if negb (start + Z.of_nat size =? end_) then (RuneError, 1%nat)
      else (r, size).

(** [unicode.IsSpace]: the Latin-1 cases, then the White_Space table. *)
Definition IsSpace (r : Z) : bool :=
  if wrap_uint32 r <=? 255
  then (r =? 9) || (r =? 10) || (r =? 11) || (r =? 12) || (r =? 13)
       || (r =? 32) || (r =? 133) || (r =? 160)
  else (r =? 5760) || ((8192 <=? r) && (r <=? 8202))
       || ((8232 <=? r) && (r <=? 8233)) || (r =? 8239) || (r =? 8287)
       || (r =? 12288).

(** [strings.TrimLeftFunc(s, unicode.IsSpace)]; the loop runs at most once
    per byte of [s]. *)
Fixpoint trimLeftSpace (n : nat) (s : list Z) : list Z :=
  match n with
  | O => s
  | S n' =>
    match s with
    | [] => []
    | _ :: _ =>
      let (r, size) := DecodeRuneInString s in
      if IsSpace r then trimLeftSpace n' (skipn size s) else s
    end
  end.

(** [strings.TrimRightFunc(s, unicode.IsSpace)] *)
Fixpoint trimRightSpace (n : nat) (s : list Z) : list Z :=
  match n with
  | O => s
  | S n' =>
    match s with
    | [] => []
    | _ :: _ =>
      let (r, size) := DecodeLastRuneInString s in
      if IsSpace r then trimRightSpace n' (firstn (length s - size) s) else s
    end
  end.

Definition bytes_of_string (s : string) : list Z :=
  map byte_of (list_ascii_of_string s).
Definition string_of_byte_list (l : list Z) : string :=
  string_of_list_ascii (map ascii_of l).

Definition TrimSpace (s : string) : string :=
  let b := bytes_of_string s in
  let l := trimLeftSpace (length b) b in
  string_of_byte_list (trimRightSpace (length l) l).

(** [utf8.AppendRune] on a valid rune: the bytes that encode [r]. *)
Definition EncodeRune (r : Z) : list Z :=
  if r <=? 127 then [r]
  else if r <=? 2047
  then [Z.lor 192 (Z.shiftr r 6); Z.lor 128 (Z.land r 63)]
  else if r <=? 65535
  then [Z.lor 224 (Z.shiftr r 12); Z.lor 128 (Z.land (Z.shiftr r 6) 63);
        Z.lor 128 (Z.land r 63)]
  else [Z.lor 240 (Z.shiftr r 18); Z.lor 128 (Z.land (Z.shiftr r 12) 63);
        Z.lor 128 (Z.land (Z.shiftr r 6) 63); Z.lor 128 (Z.land r 63)].

(** A string that is empty or made of white space only: the encoding of a
    sequence of runes that are all spaces. *)
Definition only_whitespace (s : string) : Prop :=
  exists rs : list Z,
    Forall (fun r => IsSpace r = true) rs /\
    bytes_of_string s = concat (map EncodeRune rs).

(** ** Device states *)

Definition DeviceState := string.

Definition StateUnknown : DeviceState := "UNKNOWN".
Definition StateOnline : DeviceState := "online".
Definition StateOffline : DeviceState := "offline".
Definition StateDisconnected : DeviceState := "disconnected".

Definition deviceStateStrings : gmap string DeviceState :=
  <[ "" := StateDisconnected ]>
  (<[ "offline" := StateOffline ]>
  (<[ "device" := StateOnline ]> ∅)).

Definition deviceStateConv (k : string) : DeviceState :=
  match deviceStateStrings !! k with
  | Some deviceState => deviceState
  | None => StateUnknown
  end.

(** ** The transport layer, as seen from device.go

    [Client], [Transport] and [syncTransport] are declared in other files
    of the package.  device.go reads the fields [host] and [port] of the
    client and [sock] of a transport; sockets, readers and writers are
    identified by a number. *)

Definition Conn := nat.
Definition Reader := nat.
Definition Writer := nat.

Record Client := mkClient {
  host : string;
  port : Z
}.

Record Transport := mkTransport {
  sock : Conn
}.

(** [*Transport]: nil is [None]. *)
Definition TransportPtr := option Transport.

Record syncTransport := mkSyncTransport {
  sync_sock : Conn
}.

(** [*bufio.Scanner] over a socket. *)
Inductive Scanner := NewScanner (r : Conn).

Record Device := mkDevice {
  adbClient : Client;
  serial : string;
  attrs : gmap string string
}.

(** The calls device.go makes, each with the type of what it returns.
    [Panic] is the run-time panic of a nil dereference; it returns
    nothing. *)
Variant adbE : Type -> Type :=
| NewTransport (address : string) : adbE (TransportPtr * error)
| Transport_Send (tp : TransportPtr) (command : string) : adbE error
| Transport_VerifyResponse (tp : TransportPtr) : adbE error
| Transport_ReadBytesAll (tp : TransportPtr) : adbE (bytes * error)
| Transport_Close (tp : TransportPtr) : adbE error
| Transport_CreateSyncTransport (tp : TransportPtr)
    : adbE (syncTransport * error)
| sync_Send (sync : syncTransport) (command data : string) : adbE error
| sync_ReadDirectoryEntry (sync : syncTransport)
    : adbE (DeviceFileInfo * error)
| sync_SendStream (sync : syncTransport) (source : Reader) : adbE error
| sync_SendStatus (sync : syncTransport) (statusCode : string) (n : Z)
    : adbE error
| sync_VerifyStatus (sync : syncTransport) : adbE error
| sync_WriteStream (sync : syncTransport) (dest : Writer) : adbE error
| sync_Close (sync : syncTransport) : adbE error
| Client_executeCommand (c : Client) (command : string)
    (onlyVerifyResponse : list bool) : adbE (string * error)
| Panic (msg : string) : adbE Empty_set.

Definition call {X : Type} (e : adbE X) : itree adbE X := ITree.trigger e.

Definition panic {A : Type} (msg : string) : itree adbE A :=
  v <- call (Panic msg) ;; match v : Empty_set with end.

(** [defer func() { _ = cleanup }()] placed before [body]: the cleanup runs
    when the body has set the results; its own result is dropped. *)
Definition defer {A X : Type} (cleanup : itree adbE X) (body : itree adbE A)
  : itree adbE A :=
  r <- body ;; _ <- cleanup ;; Ret r.

(** The first element of a variadic argument, [v[0]]. *)
Definition index0 {A : Type} (v : list A) (default : A) : A :=
  match v with
  | [] => default
  | x :: _ => x
  end.

(** ** Host-side operations, through the client *)

Definition State (d : Device) : itree adbE (DeviceState * error) :=
  r <- call (Client_executeCommand (adbClient d)
               ("host-serial:" +:+ serial d +:+ ":get-state") []) ;;
  Ret (deviceStateConv (fst r), snd r).

Definition DevicePath (d : Device) : itree adbE (string * error) :=
  r <- call (Client_executeCommand (adbClient d)
               ("host-serial:" +:+ serial d +:+ ":get-devpath") []) ;;
  Ret (fst r, snd r).

(** The command string both forward operations build. *)
Definition forward_command (d : Device) (local remote : string)
    (noRebind : list bool) : string :=
  if negb (length noRebind =? 0)%nat && index0 noRebind false
  then "host-serial:" +:+ serial d +:+ ":forward:norebind:" +:+ local
         +:+ ";" +:+ remote
  else "host-serial:" +:+ serial d +:+ ":forward:" +:+ local
         +:+ ";" +:+ remote.

Definition Forward (d : Device) (localPort remotePort : Z)
    (noRebind : list bool) : itree adbE error :=
  let local := "tcp:" +:+ fmt_d localPort in
  let remote := "tcp:" +:+ fmt_d remotePort in
  let command := forward_command d local remote noRebind in
  r <- call (Client_executeCommand (adbClient d) command [true]) ;;
  Ret (snd r).

Definition RawForward (d : Device) (local remote : string)
    (noRebind : list bool) : itree adbE error :=
  let command := forward_command d local remote noRebind in
  r <- call (Client_executeCommand (adbClient d) command [true]) ;;
  Ret (snd r).

Definition ForwardKill (d : Device) (localPort : Z) : itree adbE error :=
  let local := "tcp:" +:+ fmt_d localPort in
  r <- call (Client_executeCommand (adbClient d)
               ("host-serial:" +:+ serial d +:+ ":killforward:" +:+ local)
               [true]) ;;
  Ret (snd r).

(** ** Device transports *)

Definition CreateDeviceTransport (d : Device)
  : itree adbE (TransportPtr * error) :=
  r <- call (NewTransport (host (adbClient d) +:+ ":"
                             +:+ fmt_d (port (adbClient d)))) ;;
  let tp := fst r in
  match snd r with
  | Some _ => Ret (None, snd r)
  | None =>
    err <- call (Transport_Send tp ("host:transport:" +:+ serial d)) ;;
    match err with
    | Some _ => Ret (None, err)
    | None =>
      err <- call (Transport_VerifyResponse tp) ;;
      Ret (tp, err)
    end
  end.

Definition executeCommand (d : Device) (command : string)
    (onlyVerifyResponse : list bool) : itree adbE (bytes * error) :=
  let onlyVerifyResponse :=
    if (length onlyVerifyResponse =? 0)%nat then [false]
    else onlyVerifyResponse in
  r <- CreateDeviceTransport d ;;
  let tp := fst r in
  match snd r with
  | Some _ => Ret (None, snd r)
  | None =>
    defer (call (Transport_Close tp))
      (err <- call (Transport_Send tp command) ;;
       match err with
       | Some _ => Ret (None, err)
       | None =>
         err <- call (Transport_VerifyResponse tp) ;;
         match err with
         | Some _ => Ret (None, err)
         | None =>
           if index0 onlyVerifyResponse false then Ret (None, None)
           else call (Transport_ReadBytesAll tp)
         end
       end)
  end.

Definition RunShellCommandWithBytes (d : Device) (cmd : string)
    (args : list string) : itree adbE (bytes * error) :=
  let cmd :=
    if (0 <? length args)%nat then cmd +:+ " " +:+ Join args " " else cmd in
  if String.eqb (TrimSpace cmd) ""
  then Ret (None, Some "adb shell: command cannot be empty")
  else executeCommand d ("shell:" +:+ cmd) [].

Definition RunShellCommand (d : Device) (cmd : string) (args : list string)
  : itree adbE (string * error) :=
  r <- RunShellCommandWithBytes d cmd args ;;
  Ret (string_of_bytes (fst r), snd r).

Section AdbDaemonPort.

(** The constant is declared in another file of the package. *)
Variable AdbDaemonPort : Z.

Definition EnableAdbOverTCP (d : Device) (port : list Z) : itree adbE error :=
  let port := if (length port =? 0)%nat then [AdbDaemonPort] else port in
  r <- executeCommand d ("tcpip:" +:+ fmt_d (index0 port 0)) [true] ;;
  Ret (snd r).

End AdbDaemonPort.

(** ** Sync operations *)

(** The loop of [List]: read entries until an error or the zero entry. *)
Definition List_loop (sync : syncTransport)
  : slice DeviceFileInfo -> itree adbE (slice DeviceFileInfo * error) :=
  ITree.iter (fun devFileInfos =>
    r <- call (sync_ReadDirectoryEntry sync) ;;
    let entry := fst r in
    let err := snd r in
    match err with
    | Some _ => Ret (inr (devFileInfos, err))
    | None =>
      if DeviceFileInfo_eqb entry zeroDeviceFileInfo
      then Ret (inr (devFileInfos, err))
      else Ret (inl (append devFileInfos entry))
    end).

Definition List (d : Device) (remotePath : string)
  : itree adbE (slice DeviceFileInfo * error) :=
  r <- CreateDeviceTransport d ;;
  let tp := fst r in
  match snd r with
  | Some _ => Ret (None, snd r)
  | None =>
    defer (call (Transport_Close tp))
      (rs <- call (Transport_CreateSyncTransport tp) ;;
       let sync := fst rs in
       match snd rs with
       | Some _ => Ret (None, snd rs)
       | None =>
         defer (call (sync_Close sync))
           (err <- call (sync_Send sync "LIST" remotePath) ;;
            match err with
            | Some _ => Ret (None, err)
            | None => List_loop sync (Some [])
            end)
       end)
  end.

Definition Push (d : Device) (source : Reader) (remotePath : string)
    (modification : Time) (mode : list Z) : itree adbE error :=
  let mode := if (length mode =? 0)%nat then [DefaultFileMode] else mode in
  r <- CreateDeviceTransport d ;;
  let tp := fst r in
  match snd r with
  | Some _ => Ret (snd r)
  | None =>
    defer (call (Transport_Close tp))
      (rs <- call (Transport_CreateSyncTransport tp) ;;
       let sync := fst rs in
       match snd rs with
       | Some _ => Ret (snd rs)
       | None =>
         defer (call (sync_Close sync))
           (let data := remotePath +:+ "," +:+ fmt_d (index0 mode 0) in
            err <- call (sync_Send sync "SEND" data) ;;
            match err with
            | Some _ => Ret err
            | None =>
              err <- call (sync_SendStream sync source) ;;
              match err with
              | Some _ => Ret err
              | None =>
                err <- call (sync_SendStatus sync "DONE"
                               (wrap_uint32 (Unix modification))) ;;
                match err with
                | Some _ => Ret err
                | None =>
                  err <- call (sync_VerifyStatus sync) ;;
                  Ret err
                end
              end
            end)
       end)
  end.

Definition Pull (d : Device) (remotePath : string) (dest : Writer)
  : itree adbE error :=
  r <- CreateDeviceTransport d ;;
  let tp := fst r in
  match snd r with
  | Some _ => Ret (snd r)
  | None =>
    defer (call (Transport_Close tp))
      (rs <- call (Transport_CreateSyncTransport tp) ;;
       let sync := fst rs in
       match snd rs with
       | Some _ => Ret (snd rs)
       | None =>
         defer (call (sync_Close sync))
           (err <- call (sync_Send sync "RECV" remotePath) ;;
            match err with
            | Some _ => Ret err
            | None => call (sync_WriteStream sync dest)
            end)
       end)
  end.

Definition ShellStream (d : Device) (cmd : string)
  : itree adbE (TransportPtr * option Scanner * error) :=
  r <- CreateDeviceTransport d ;;
  let tp := fst r in
  match snd r with
  | Some _ => Ret (None, None, snd r)
  | None =>
    err <- call (Transport_Send tp ("shell:" +:+ cmd)) ;;
    match err with
    | Some _ => _ <- call (Transport_Close tp) ;; Ret (None, None, err)
    | None =>
      err <- call (Transport_VerifyResponse tp) ;;
      match err with
      | Some _ => _ <- call (Transport_Close tp) ;; Ret (None, None, err)
      | None =>
        match tp with
        | None => panic "nil pointer dereference"
        | Some t => Ret (tp, Some (NewScanner (sock t)), None)
        end
      end
    end
  end.

(** ** Runs

    A step is a call together with the answer it got; a run of a program
    is the list of its steps and the result it returns. *)

Inductive step : Type :=
| Step : forall X : Type, adbE X -> X -> step.
Arguments Step {X} e x.

Inductive run {R : Type} : itree adbE R -> list step -> R -> Prop :=
| run_Ret t r :
    observe t = RetF r -> run t [] r
| run_Tau t u tr r :
    observe t = TauF u -> run u tr r -> run t tr r
| run_Vis t X (e : adbE X) k x tr r :
    observe t = VisF e k -> run (k x) tr r -> run t (Step e x :: tr) r.

(** What a run of a tree looks like, by the head of the tree. *)
Definition run_head {R : Type} (ot : itree' adbE R) (tr : list step) (r : R)
  : Prop :=
  match ot with
  | RetF r' => tr = [] /\ r = r'
  | TauF u => run u tr r
  | VisF e k => exists x tr', tr = Step e x :: tr' /\ run (k x) tr' r
  end.

(** The answer of a step, outside of the type of its call. *)
Variant value : Type :=
| V_transport (a : TransportPtr * error)
| V_error (a : error)
| V_bytes (a : bytes * error)
| V_sync (a : syncTransport * error)
| V_entry (a : DeviceFileInfo * error)
| V_reply (a : string * error).

Definition answer_value {X : Type} (e : adbE X) : X -> value :=
  match e in adbE X return X -> value with
  | NewTransport _ => V_transport
  | Transport_Send _ _ => V_error
  | Transport_VerifyResponse _ => V_error
  | Transport_ReadBytesAll _ => V_bytes
  | Transport_Close _ => V_error
  | Transport_CreateSyncTransport _ => V_sync
  | sync_Send _ _ _ => V_error
  | sync_ReadDirectoryEntry _ => V_entry
  | sync_SendStream _ _ => V_error
  | sync_SendStatus _ _ _ => V_error
  | sync_VerifyStatus _ => V_error
  | sync_WriteStream _ _ => V_error
  | sync_Close _ => V_error
  | Client_executeCommand _ _ _ => V_reply
  | Panic _ => fun v => match v with end
  end.

Definition step_value (s : step) : value :=
  match s with
  | Step e x => answer_value e x
  end.

(** Reading an answer back at the type of a call. *)
Definition answer_of {X : Type} (e : adbE X) : value -> option X :=
  match e in adbE X return value -> option X with
  | NewTransport _ =>
      fun v => match v with V_transport a => Some a | _ => None end
  | Transport_ReadBytesAll _ =>
      fun v => match v with V_bytes a => Some a | _ => None end
  | Transport_CreateSyncTransport _ =>
      fun v => match v with V_sync a => Some a | _ => None end
  | sync_ReadDirectoryEntry _ =>
      fun v => match v with V_entry a => Some a | _ => None end
  | Client_executeCommand _ _ _ =>
      fun v => match v with V_reply a => Some a | _ => None end
  | Panic _ => fun _ => None
  | _ => fun v => match v with V_error a => Some a | _ => None end
  end.

(** Running a program against the answers of a scripted peer: each call
    takes the next answer; the run stops without a result when the script
    ends early, an answer has the wrong shape, the program panics, or the
    fuel runs out. *)
Fixpoint exec {R : Type} (fuel : nat) (t : itree adbE R)
    (answers : list value) : option (list step * R) :=
  match fuel with
  | O => None
  | S fuel' =>
    match observe t with
    | RetF r => Some ([], r)
    | TauF u => exec fuel' u answers
    | VisF e k =>
      match answers with
      | [] => None
      | v :: rest =>
        match answer_of e v with
        | None => None
        | Some x =>
          match exec fuel' (k x) rest with
          | None => None
          | Some (tr, r) => Some (Step e x :: tr, r)
          end
        end
      end
    end
  end.

(** A step that opens a transport or sends a command on one. *)
Definition uses_transport (s : step) : bool :=
  match s with
  | Step e _ =>
    match e with
    | NewTransport _ | Transport_Send _ _ => true
    | _ => false
    end
  end.

(** A step that closes a transport. *)
Definition closes_transport (s : step) : bool :=
  match s with
  | Step e _ =>
    match e with
    | Transport_Close _ => true
    | _ => false
    end
  end.

(** ** What the operations exchange, step by step *)

(** The address a device transport is opened to. *)
Definition address (d : Device) : string :=
  host (adbClient d) +:+ ":" +:+ fmt_d (port (adbClient d)).

(** Selecting the device: open a transport, send [host:transport:<serial>]
    on it, verify the response.  The result is the transport and the
    error of the step that ended the selection. *)
Inductive handshake (d : Device)
  : list step -> TransportPtr * error -> Prop :=
| handshake_open_fails tp e :
    handshake d [Step (NewTransport (address d)) (tp, Some e)] (None, Some e)
| handshake_send_fails tp e :
    handshake d
      [Step (NewTransport (address d)) (tp, None);
       Step (Transport_Send tp ("host:transport:" +:+ serial d)) (Some e)]
      (None, Some e)
| handshake_verified tp err :
    handshake d
      [Step (NewTransport (address d)) (tp, None);
       Step (Transport_Send tp ("host:transport:" +:+ serial d)) None;
       Step (Transport_VerifyResponse tp) err]
      (tp, err).

(** An operation on a device: when the device was not selected it fails
    at once, with nothing exchanged; otherwise its exchange follows on the
    selected transport. *)
Inductive device_session {A : Type} (d : Device) (fail : error -> A)
    (exchange : TransportPtr -> list step -> A -> Prop)
  : list step -> A -> Prop :=
| device_refused tr0 r0 e :
    handshake d tr0 r0 -> snd r0 = Some e ->
    device_session d fail exchange tr0 (fail (Some e))
| device_selected tr0 tp rest r :
    handshake d tr0 (tp, None) -> exchange tp rest r ->
    device_session d fail exchange (tr0 ++ rest) r.

(** An exchange whose transport is closed when it ends. *)
Inductive closing {A : Type}
    (exchange : TransportPtr -> list step -> A -> Prop) (tp : TransportPtr)
  : list step -> A -> Prop :=
| closing_intro body r c :
    exchange tp body r ->
    closing exchange tp (body ++ [Step (Transport_Close tp) c]) r.

(** The same one level down, for the sync mode of a transport. *)
Inductive sync_session {A : Type} (fail : error -> A)
    (exchange : syncTransport -> list step -> A -> Prop)
    (tp : TransportPtr) : list step -> A -> Prop :=
| sync_refused sync e :
    sync_session fail exchange tp
      [Step (Transport_CreateSyncTransport tp) (sync, Some e)]
      (fail (Some e))
| sync_held sync body r c :
    exchange sync body r ->
    sync_session fail exchange tp
      (Step (Transport_CreateSyncTransport tp) (sync, None)
         :: body ++ [Step (sync_Close sync) c]) r.

Inductive executeCommand_exchange (command : string) (onlyVerify : bool)
    (tp : TransportPtr) : list step -> bytes * error -> Prop :=
| command_send_fails e :
    executeCommand_exchange command onlyVerify tp
      [Step (Transport_Send tp command) (Some e)] (None, Some e)
| command_rejected e :
    executeCommand_exchange command onlyVerify tp
      [Step (Transport_Send tp command) None;
       Step (Transport_VerifyResponse tp) (Some e)] (None, Some e)
| command_verified :
    onlyVerify = true ->
    executeCommand_exchange command onlyVerify tp
      [Step (Transport_Send tp command) None;
       Step (Transport_VerifyResponse tp) None] (None, None)
| command_answered raw err :
    onlyVerify = false ->
    executeCommand_exchange command onlyVerify tp
      [Step (Transport_Send tp command) None;
       Step (Transport_VerifyResponse tp) None;
       Step (Transport_ReadBytesAll tp) (raw, err)] (raw, err).

(** The reads of a listing that starts with the entries [acc]. *)
Inductive List_reads (sync : syncTransport)
  : slice DeviceFileInfo -> list step -> slice DeviceFileInfo * error -> Prop :=
| reads_fail acc entry e :
    List_reads sync acc
      [Step (sync_ReadDirectoryEntry sync) (entry, Some e)] (acc, Some e)
| reads_end acc entry :
    entry = zeroDeviceFileInfo ->
    List_reads sync acc
      [Step (sync_ReadDirectoryEntry sync) (entry, None)] (acc, None)
| reads_more acc entry tr r :
    entry <> zeroDeviceFileInfo ->
    List_reads sync (append acc entry) tr r ->
    List_reads sync acc
      (Step (sync_ReadDirectoryEntry sync) (entry, None) :: tr) r.

Inductive List_exchange (remotePath : string) (sync : syncTransport)
  : list step -> slice DeviceFileInfo * error -> Prop :=
| list_send_fails e :
    List_exchange remotePath sync
      [Step (sync_Send sync "LIST" remotePath) (Some e)] (None, Some e)
| list_reads tr r :
    List_reads sync (Some []) tr r ->
    List_exchange remotePath sync
      (Step (sync_Send sync "LIST" remotePath) None :: tr) r.

(** The exchange of a push, as the specification orders it: SEND with the
    payload [data], the stream of the source, DONE with the modification
    time, the verification of the status; the first failing step ends
    it. *)
Inductive Push_exchange (source : Reader) (data : string) (mtime : Z)
    (sync : syncTransport) : list step -> error -> Prop :=
| push_send_fails e :
    Push_exchange source data mtime sync
      [Step (sync_Send sync "SEND" data) (Some e)] (Some e)
| push_stream_fails e :
    Push_exchange source data mtime sync
      [Step (sync_Send sync "SEND" data) None;
       Step (sync_SendStream sync source) (Some e)] (Some e)
| push_done_fails e :
    Push_exchange source data mtime sync
      [Step (sync_Send sync "SEND" data) None;
       Step (sync_SendStream sync source) None;
       Step (sync_SendStatus sync "DONE" mtime) (Some e)] (Some e)
| push_verified err :
    Push_exchange source data mtime sync
      [Step (sync_Send sync "SEND" data) None;
       Step (sync_SendStream sync source) None;
       Step (sync_SendStatus sync "DONE" mtime) None;
       Step (sync_VerifyStatus sync) err] err.

Inductive Pull_exchange (remotePath : string) (dest : Writer)
    (sync : syncTransport) : list step -> error -> Prop :=
| pull_send_fails e :
    Pull_exchange remotePath dest sync
      [Step (sync_Send sync "RECV" remotePath) (Some e)] (Some e)
| pull_written err :
    Pull_exchange remotePath dest sync
      [Step (sync_Send sync "RECV" remotePath) None;
       Step (sync_WriteStream sync dest) err] err.

(** What [ShellStream] does on a selected device. *)
Inductive ShellStream_exchange (cmd : string) (tp : TransportPtr)
  : list step -> TransportPtr * option Scanner * error -> Prop :=
| stream_send_fails e c :
    ShellStream_exchange cmd tp
      [Step (Transport_Send tp ("shell:" +:+ cmd)) (Some e);
       Step (Transport_Close tp) c] (None, None, Some e)
| stream_rejected e c :
    ShellStream_exchange cmd tp
      [Step (Transport_Send tp ("shell:" +:+ cmd)) None;
       Step (Transport_VerifyResponse tp) (Some e);
       Step (Transport_Close tp) c] (None, None, Some e)
| stream_open t :
    tp = Some t ->
    ShellStream_exchange cmd tp
      [Step (Transport_Send tp ("shell:" +:+ cmd)) None;
       Step (Transport_VerifyResponse tp) None]
      (tp, Some (NewScanner (sock t)), None).

(** ** The operations that select a device *)

Variant operation : Type -> Type :=
| op_executeCommand (command : string) (onlyVerifyResponse : list bool)
    : operation (bytes * error)
| op_List (remotePath : string) : operation (slice DeviceFileInfo * error)
| op_Push (source : Reader) (remotePath : string) (modification : Time)
    (mode : list Z) : operation error
| op_Pull (remotePath : string) (dest : Writer) : operation error
| op_ShellStream (cmd : string)
    : operation (TransportPtr * option Scanner * error).

Definition perform (d : Device) {R : Type} (op : operation R)
  : itree adbE R :=
  match op with
  | op_executeCommand command onlyVerifyResponse =>
      executeCommand d command onlyVerifyResponse
  | op_List remotePath => List d remotePath
  | op_Push source remotePath modification mode =>
      Push d source remotePath modification mode
  | op_Pull remotePath dest => Pull d remotePath dest
  | op_ShellStream cmd => ShellStream d cmd
  end.

(** What an operation returns when it fails with [err] before anything is
    exchanged: nil results and the error. *)
Definition failure {R : Type} (op : operation R) (err : error) : R :=
  match op with
  | op_executeCommand _ _ => (None, err)
  | op_List _ => (None, err)
  | op_Push _ _ _ _ => err
  | op_Pull _ _ => err
  | op_ShellStream _ => (None, None, err)
  end.

(** The exchange of each operation on the selected transport. *)
Definition exchange_of {R : Type} (op : operation R)
  : TransportPtr -> list step -> R -> Prop :=
  match op with
  | op_executeCommand command onlyVerifyResponse =>
      closing (executeCommand_exchange command
                 (index0 onlyVerifyResponse false))
  | op_List remotePath =>
      closing (sync_session (fun e => (None, e)) (List_exchange remotePath))
  | op_Push source remotePath modification mode =>
      closing (sync_session (fun e => e)
                 (Push_exchange source
                    (remotePath +:+ "," +:+
                       fmt_d (index0 mode DefaultFileMode))
                    (wrap_uint32 (Unix modification))))
  | op_Pull remotePath dest =>
      closing (sync_session (fun e => e) (Pull_exchange remotePath dest))
  | op_ShellStream cmd => ShellStream_exchange cmd
  end.

(** The operations that keep the transport to themselves; [ShellStream]
    hands it to its caller. *)
Definition owns_transport {R : Type} (op : operation R) : bool :=
  match op with
  | op_ShellStream _ => false
  | _ => true
  end.

(** The three steps of a successful selection of the device. *)
Definition selected (d : Device) (tp : TransportPtr) : list step :=
  [Step (NewTransport (address d)) (tp, None);
   Step (Transport_Send tp ("host:transport:" +:+ serial d)) None;
   Step (Transport_VerifyResponse tp) None].

(** The steps of a selection that opened the transport [tp] and failed
    with [e] at the send of [host:transport:<serial>]. *)
Definition send_refused (d : Device) (tp : TransportPtr) (e : string)
  : list step :=
  [Step (NewTransport (address d)) (tp, None);
   Step (Transport_Send tp ("host:transport:" +:+ serial d)) (Some e)].

(** The same with the send accepted and the verification of the response
    failing with [e]. *)
Definition verify_refused (d : Device) (tp : TransportPtr) (e : string)
  : list step :=
  [Step (NewTransport (address d)) (tp, None);
   Step (Transport_Send tp ("host:transport:" +:+ serial d)) None;
   Step (Transport_VerifyResponse tp) (Some e)].

(** A successful read of one directory entry. *)
Definition read_entry (sync : syncTransport) (entry : DeviceFileInfo) : step :=
  Step (sync_ReadDirectoryEntry sync) (entry, None).

(** The steps of an operation that got its sync transport: the device is
    selected, the sync transport created, [body] exchanged on it, and both
    are closed. *)
Definition sync_steps (d : Device) (tp : TransportPtr) (sync : syncTransport)
    (body : list step) (c1 c2 : error) : list step :=
  selected d tp ++
  Step (Transport_CreateSyncTransport tp) (sync, None) ::
  body ++ [Step (sync_Close sync) c1; Step (Transport_Close tp) c2].

(** The steps of a listing to which the peer delivers [answers]. *)
Definition listing (remotePath : string) (sync : syncTransport)
    (answers : list step) : list step :=
  Step (sync_Send sync "LIST" remotePath) None :: answers.

(** ** Host-side operations, as the specification words them *)

(** The state for a reply of the server: "device" is online, "" is
    disconnected, "offline" is offline, anything else is unknown. *)
Definition state_of_reply (reply : string) : DeviceState :=
  if String.eqb reply "device" then "online"
  else if String.eqb reply "" then "disconnected"
  else if String.eqb reply "offline" then "offline"
  else "UNKNOWN".

Variant host_operation : Type -> Type :=
| hop_State : host_operation (DeviceState * error)
| hop_Forward (localPort remotePort : Z) (noRebind : list bool)
    : host_operation error
| hop_RawForward (local remote : string) (noRebind : list bool)
    : host_operation error
| hop_ForwardKill (localPort : Z) : host_operation error.

Definition perform_host (d : Device) {R : Type} (op : host_operation R)
  : itree adbE R :=
  match op with
  | hop_State => State d
  | hop_Forward localPort remotePort noRebind =>
      Forward d localPort remotePort noRebind
  | hop_RawForward local remote noRebind => RawForward d local remote noRebind
  | hop_ForwardKill localPort => ForwardKill d localPort
  end.

(** The optional flag was passed, and as true. *)
Definition passed_true (flag : list bool) : bool :=
  match flag with
  | true :: _ => true
  | _ => false
  end.

Definition tcp (p : Z) : string := "tcp:" +:+ fmt_d p.

Definition forward_subcommand (local remote : string) (noRebind : bool)
  : string :=
  "forward:" +:+ (if noRebind then "norebind:" else "") +:+ local +:+ ";"
    +:+ remote.

(** The subcommand of each host-side operation. *)
Definition subcommand_of {R : Type} (op : host_operation R) : string :=
  match op with
  | hop_State => "get-state"
  | hop_Forward localPort remotePort noRebind =>
      forward_subcommand (tcp localPort) (tcp remotePort)
        (passed_true noRebind)
  | hop_RawForward local remote noRebind =>
      forward_subcommand local remote (passed_true noRebind)
  | hop_ForwardKill localPort => "killforward:" +:+ tcp localPort
  end.

(** The flag the client's [executeCommand] is given: the state is read
    from the reply, the others only verify the response. *)
Definition verify_only {R : Type} (op : host_operation R) : list bool :=
  match op with
  | hop_State => []
  | _ => [true]
  end.

(** What the operation returns for the reply of the client. *)
Definition host_result {R : Type} (op : host_operation R)
    (reply : string * error) : R :=
  match op with
  | hop_State => (deviceStateConv (fst reply), snd reply)
  | _ => snd reply
  end.

(** The one step of a host-side operation. *)
Definition host_step (d : Device) (subcommand : string)
    (onlyVerifyResponse : list bool) (reply : string * error) : step :=
  Step (Client_executeCommand (adbClient d)
          ("host-serial:" +:+ serial d +:+ ":" +:+ subcommand)
          onlyVerifyResponse) reply.

(** The command [RunShellCommandWithBytes] is about to send: [cmd], then
    the arguments joined by spaces. *)
Definition shell_command (cmd : string) (args : list string) : string :=
  match args with
  | [] => cmd
  | _ :: _ => cmd +:+ " " +:+ Join args " "
  end.

(** ** Values for the examples *)

Definition dev0 : Device :=
  mkDevice (mkClient "localhost" 5037) "emulator-5554" ∅.
Definition tp0 : TransportPtr := Some (mkTransport 3%nat).
Definition sync0 : syncTransport := mkSyncTransport 3%nat.
Definition time0 : Time := mkTime 0 63800000000 (Some 1%positive).
Definition entry_a : DeviceFileInfo := mkDeviceFileInfo "a.txt" 33188 12 time0.
Definition entry_b : DeviceFileInfo := mkDeviceFileInfo "b" 16877 4096 time0.

(** ** The rest of device.go *)

(** [m[key]] on a Go map: the zero value when the key is missing. *)
Definition map_index (m : gmap string string) (key : string) : string :=
  default "" (m !! key).

Definition Product (d : Device) : string := map_index (attrs d) "product".
Definition Model (d : Device) : string := map_index (attrs d) "model".
Definition Usb (d : Device) : string := map_index (attrs d) "usb".
Definition transportId (d : Device) : string :=
  map_index (attrs d) "transport_id".
Definition DeviceInfo (d : Device) : gmap string string := attrs d.
Definition IsUsb (d : Device) : bool := negb (String.eqb (Usb d) "").

(** [contains]: the loop returns at the first equal element. *)
Fixpoint contains (l : list string) (v : string) : bool :=
  match l with
  | [] => false
  | r :: rest => if String.eqb r v then true else contains rest v
  end.

(** [strings.HasPrefix] and [strings.Contains]. *)
Fixpoint HasPrefix (s prefix : string) : bool :=
  match prefix, s with
  | EmptyString, _ => true
  | String p prefix', String c s' => Ascii.eqb c p && HasPrefix s' prefix'
  | String _ _, EmptyString => false
  end.

Fixpoint Contains (s substr : string) : bool :=
  HasPrefix s substr ||
  match s with
  | EmptyString => false
  | String _ s' => Contains s' substr
  end.

(** [fmt.Errorf(prefix + "%w", err)] and [fmt.Errorf(prefix + "%s", s)]:
    an error whose message is the prefix followed by the message. *)
Definition Errorf (prefix msg : string) : error := Some (prefix +:+ msg).

Definition AppUninstall (d : Device) (appPackageName : string)
    (keepDataAndCache : list bool) : itree adbE error :=
  r <- (if negb (length keepDataAndCache =? 0)%nat
           && index0 keepDataAndCache false
        then RunShellCommand d "pm uninstall" ["-k"; appPackageName]
        else RunShellCommand d "pm uninstall" [appPackageName]) ;;
  let shellOutput := fst r in
  match snd r with
  | Some msg => Ret (Errorf "apk uninstall: " msg)
  | None =>
    if negb (Contains shellOutput "Success")
    then Ret (Errorf "apk uninstalled: " shellOutput)
    else Ret None
  end.

Definition AppLaunch (d : Device) (appPackageName : string)
  : itree adbE error :=
  r <- RunShellCommand d "monkey -p"
         [appPackageName; "-c android.intent.category.LAUNCHER 1"] ;;
  let sOutput := fst r in
  match snd r with
  | Some _ => Ret (snd r)
  | None =>
    if Contains sOutput "monkey aborted"
    then Ret (Errorf "app launch: " (TrimSpace sOutput))
    else Ret None
  end.

Definition AppTerminate (d : Device) (appPackageName : string)
  : itree adbE error :=
  r <- RunShellCommand d "am force-stop" [appPackageName] ;;
  Ret (snd r).

(** *** Calls outside the transport layer

    [ForwardList] asks the client for the forwards of all devices and
    [PushFile] asks the local file for its [Stat]; both callees are
    outside device.go. *)

Record DeviceForward := mkDeviceForward {
  Serial : string;
  Local_ : string;
  Remote : string
}.

(** [os.FileInfo], of which device.go reads [ModTime()]. *)
Record FileInfo := mkFileInfo {
  ModTime : Time
}.

(** [*os.File]; [Push] takes it as the [io.Reader] it is. *)
Definition File := Reader.

Variant auxE : Type -> Type :=
| Client_ForwardList (c : Client) : auxE (slice DeviceForward * error)
| File_Stat (local : File) : auxE (FileInfo * error).

(** All the calls of device.go. *)
Definition devE : Type -> Type := adbE +' auxE.

(** A program of the transport layer, as a program over all calls. *)
Definition lift {R : Type} (t : itree adbE R) : itree devE R :=
  translate (fun X (e : adbE X) => inl1 e) t.

(** The elements a [range] visits: none for a nil slice. *)
Definition elements {A : Type} (s : slice A) : list A :=
  match s with
  | None => []
  | Some l => l
  end.

Definition ForwardList (d : Device)
  : itree devE (slice DeviceForward * error) :=
  r <- ITree.trigger (inr1 (Client_ForwardList (adbClient d))) ;;
  let forwardList := fst r in
  match snd r with
  | Some _ => Ret (None, snd r)
  | None =>
    Ret (fold_left
           (fun deviceForwardList f =>
              if String.eqb (Serial f) (serial d)
              then append deviceForwardList f
              else deviceForwardList)
           (elements forwardList) (Some []),
         None)
  end.

Definition PushFile (d : Device) (local : File) (remotePath : string)
    (modification : list Time) : itree devE error :=
  if (length modification =? 0)%nat
  then
    r <- ITree.trigger (inr1 (File_Stat local)) ;;
    let stat := fst r in
    match snd r with
    | Some _ => Ret (snd r)
    | None =>
      lift (Push d local remotePath (index0 [ModTime stat] zeroTime)
              [DefaultFileMode])
    end
  else
    lift (Push d local remotePath (index0 modification zeroTime)
            [DefaultFileMode]).

(** Runs over all calls. *)
Inductive dstep : Type :=
| DStep : forall X : Type, devE X -> X -> dstep.
Arguments DStep {X} e x.

Definition lift_step (s : step) : dstep :=
  match s with
  | Step e x => DStep (inl1 e) x
  end.

Inductive drun {R : Type} : itree devE R -> list dstep -> R -> Prop :=
| drun_Ret t r :
    observe t = RetF r -> drun t [] r
| drun_Tau t u tr r :
    observe t = TauF u -> drun u tr r -> drun t tr r
| drun_Vis t X (e : devE X) k x tr r :
    observe t = VisF e k -> drun (k x) tr r -> drun t (DStep e x :: tr) r.

Definition drun_head {R : Type} (ot : itree' devE R) (tr : list dstep)
    (r : R) : Prop :=
  match ot with
  | RetF r' => tr = [] /\ r = r'
  | TauF u => drun u tr r
  | VisF e k => exists x tr', tr = DStep e x :: tr' /\ drun (k x) tr' r
  end.

(** Classes of steps. *)
Definition reads_bytes (s : step) : bool :=
  match s with
  | Step e _ =>
    match e with
    | Transport_ReadBytesAll _ => true
    | _ => false
    end
  end.

Definition reads_entry (s : step) : bool :=
  match s with
  | Step e _ =>
    match e with
    | sync_ReadDirectoryEntry _ => true
    | _ => false
    end
  end.

Definition opens_transport (s : step) : bool :=
  match s with
  | Step e _ =>
    match e with
    | NewTransport _ => true
    | _ => false
    end
  end.

Definition closes_sync (s : step) : bool :=
  match s with
  | Step e _ =>
    match e with
    | sync_Close _ => true
    | _ => false
    end
  end.

(** How many steps of a run are of a class. *)
Definition count (p : step -> bool) (tr : list step) : nat :=
  length (List.filter p tr).

(** A step that is a call on a transport is a call on [tp]; a call on a
    sync transport is a call on [sync]. *)
Definition on_transport (tp : TransportPtr) (s : step) : Prop :=
  match s with
  | Step e _ =>
    match e with
    | Transport_Send tp' _ | Transport_VerifyResponse tp'
    | Transport_ReadBytesAll tp' | Transport_Close tp'
    | Transport_CreateSyncTransport tp' => tp' = tp
    | _ => True
    end
  end.

Definition on_sync (sync : syncTransport) (s : step) : Prop :=
  match s with
  | Step e _ =>
    match e with
    | sync_Send sync' _ _ | sync_ReadDirectoryEntry sync'
    | sync_SendStream sync' _ | sync_SendStatus sync' _ _
    | sync_VerifyStatus sync' | sync_WriteStream sync' _
    | sync_Close sync' => sync' = sync
    | _ => True
    end
  end.

(** The operations that switch their transport to the sync mode. *)
Definition uses_sync {R : Type} (op : operation R) : bool :=
  match op with
  | op_List _ | op_Push _ _ _ _ | op_Pull _ _ => true
  | _ => false
  end.

(** A string whose first byte is an ASCII character other than a space. *)
Definition starts_plain (s : string) : bool :=
  match s with
  | EmptyString => false
  | String a _ => (byte_of a <? RuneSelf) && negb (IsSpace (byte_of a))
  end.

(** A step that sends a sync command sends SEND with the payload [data]. *)
Definition sends_only (data : string) (s : step) : Prop :=
  match s with
  | Step e _ =>
    match e with
    | sync_Send _ command data' => command = "SEND" /\ data' = data
    | _ => True
    end
  end.

(** The step of the transport layer inside a step over all calls, if it
    is one. *)
Definition transport_step (s : dstep) : option step :=
  match s with
  | DStep e x =>
    match e with
    | inl1 e' => Some (Step e' x)
    | inr1 _ => None
    end
  end.

(** *** Running applications

    The two regular expressions of [AppListRunning], matched the way
    [FindAllStringSubmatch] does: matches are found from left to right and
    do not overlap, and [\S+] takes as many characters as it can.  [\S] is
    every character but tab, line feed, form feed, carriage return and
    space. *)

Definition is_S (c : ascii) : bool :=
  let b := byte_of c in
  negb ((b =? 9) || (b =? 10) || (b =? 12) || (b =? 13) || (b =? 32)).

(** The longest prefix matched by [\S*], and what follows it. *)
Fixpoint span_S (s : string) : string * string :=
  match s with
  | EmptyString => ("", "")
  | String c t =>
    if is_S c then let (name, rest) := span_S t in (String c name, rest)
    else ("", s)
  end.

(** [s] without the prefix, when it starts with it. *)
Fixpoint strip_prefix (prefix s : string) : option string :=
  match prefix, s with
  | EmptyString, _ => Some s
  | String p prefix', String c s' =>
      if Ascii.eqb c p then strip_prefix prefix' s' else None
  | String _ _, EmptyString => None
  end.

(** The first groups of all matches of [package:(\S+)]; each round
    consumes a character, so the length of the string is fuel enough. *)
Fixpoint find_packages (fuel : nat) (s : string) : list string :=
  match fuel with
  | O => []
  | S fuel' =>
    match s with
    | EmptyString => []
    | String _ t =>
      match strip_prefix "package:" s with
      | Some after =>
        match span_S after with
        | (EmptyString, _) => find_packages fuel' t
        | (name, rest) => name :: find_packages fuel' rest
        end
      | None => find_packages fuel' t
      end
    end
  end.

(** What follows a match of [\r*\n] at the head of [s]. *)
Fixpoint after_newline (s : string) : option string :=
  match s with
  | EmptyString => None
  | String c t =>
    if byte_of c =? 13 then after_newline t
    else if byte_of c =? 10 then Some t
    else None
  end.

(** The first groups of all matches of [(\S+)\r*\n]: a run of [\S] that
    is not followed by [\r*\n] holds no match at all. *)
Fixpoint find_line_ends (fuel : nat) (s : string) : list string :=
  match fuel with
  | O => []
  | S fuel' =>
    match s with
    | EmptyString => []
    | String c t =>
      if is_S c then
        let (name, rest) := span_S s in
        match after_newline rest with
        | Some rest' => name :: find_line_ends fuel' rest'
        | None => find_line_ends fuel' rest
        end
      else find_line_ends fuel' t
    end
  end.

Definition packageNames_of (output : string) : list string :=
  find_packages (String.length output) output.

Definition processNames_of (output : string) : list string :=
  find_line_ends (String.length output) output.

(** The nested loops of [AppListRunning]: a package is appended once when
    some process has its name. *)
Definition running_of (packageNames processNames : list string)
  : slice string :=
  fold_left
    (fun result pkg =>
       if existsb (String.eqb pkg) processNames then append result pkg
       else result)
    packageNames None.

Definition AppListRunning (d : Device) : itree adbE (slice string) :=
  r <- RunShellCommand d "pm" ["list"; "packages"] ;;
  match snd r with
  | Some _ => Ret None
  | None =>
    let packageNames := packageNames_of (fst r) in
    r' <- RunShellCommand d "ps; ps -A" [] ;;
    match snd r' with
    | Some _ => Ret None
    | None =>
      let processNames := processNames_of (fst r') in
      Ret (running_of packageNames processNames)
    end
  end.

(** The loop of [AppTerminateAll]; the error of [AppTerminate] is
    dropped. *)
Fixpoint terminate_each (d : Device) (excludePackages : list string)
    (runningApps : list string) : itree adbE unit :=
  match runningApps with
  | [] => Ret tt
  | r :: rest =>
    if negb (contains excludePackages r)
    then _ <- AppTerminate d r ;; terminate_each d excludePackages rest
    else terminate_each d excludePackages rest
  end.

Definition AppTerminateAll (d : Device) (excludePackages : list string)
  : itree adbE unit :=
  runningApps <- AppListRunning d ;;
  terminate_each d excludePackages (elements runningApps).

(** A name without white space, and not empty. *)
Definition is_name (s : string) : Prop :=
  s <> "" /\ Forall (fun c => is_S c = true) (list_ascii_of_string s).

(** * Theorems *)

(** ** Runs of trees *)

Lemma run_inv {R : Type} (t : itree adbE R) tr r :
  run t tr r -> run_head (observe t) tr r.
Proof.
  destruct 1 as [t r E | t u tr r E H | t X e k x tr r E H];
    rewrite E; cbn; eauto.
Qed.

(** A run only looks at the tree through [observe]. *)
Lemma run_observe {R : Type} (t u : itree adbE R) tr r :
  observe t = observe u -> run t tr r -> run u tr r.
Proof.
  intros E H. revert u E.
  destruct H as [t r E' | t v tr r E' H | t X e k x tr r E' H]; intros u E.
  - apply run_Ret. now rewrite <- E.
  - apply run_Tau with v; [now rewrite <- E | exact H].
  - apply run_Vis with k; [now rewrite <- E | exact H].
Qed.

Lemma run_Ret_iff {R : Type} (a : R) tr r :
  run (Ret a : itree adbE R) tr r <-> tr = [] /\ r = a.
Proof.
  split.
  - intros H. apply run_inv in H. exact H.
  - intros [-> ->]. now constructor.
Qed.

Lemma run_Vis_iff {R X : Type} (e : adbE X) (k : X -> itree adbE R) tr r :
  run (Vis e k) tr r <-> exists x tr', tr = Step e x :: tr' /\ run (k x) tr' r.
Proof.
  split.
  - intros H. apply run_inv in H. exact H.
  - intros (x & tr' & -> & H). econstructor; [reflexivity | exact H].
Qed.

Lemma run_Tau_iff {R : Type} (t : itree adbE R) tr r :
  run (Tau t) tr r <-> run t tr r.
Proof.
  split.
  - intros H. apply run_inv in H. exact H.
  - intros H. econstructor; [reflexivity | exact H].
Qed.

Lemma observe_bind {A B : Type} (t : itree adbE A) (k : A -> itree adbE B) :
  observe (ITree.bind t k) =
  match observe t with
  | RetF a => observe (k a)
  | TauF u => TauF (ITree.bind u k)
  | VisF e h => VisF e (fun x => ITree.bind (h x) k)
  end.
Proof.
  change (observe (ITree.bind t k)) with
    (observe (match observe t with
              | RetF a => k a
              | TauF u => Tau (ITree.bind u k)
              | VisF e h => Vis e (fun x => ITree.bind (h x) k)
              end)).
  destruct (observe t); reflexivity.
Qed.

Lemma observe_iter {A B : Type} (body : A -> itree adbE (A + B)) (i : A) :
  observe (ITree.iter body i) =
  observe (ITree.bind (body i) (fun lr =>
             match lr with
             | inl l => Tau (ITree.iter body l)
             | inr r => Ret r
             end)).
Proof. reflexivity. Qed.

Lemma run_bind {A B : Type} (t : itree adbE A) (k : A -> itree adbE B)
    tr1 a tr2 r :
  run t tr1 a -> run (k a) tr2 r -> run (ITree.bind t k) (tr1 ++ tr2) r.
Proof.
  intros Ht Hk.
  induction Ht as [t a E | t u tr a E Hu IH | t X e h x tr a E Hh IH]; cbn.
  - eapply run_observe; [| exact Hk].
    rewrite observe_bind, E. reflexivity.
  - eapply run_Tau; [| exact (IH Hk)].
    rewrite observe_bind, E. reflexivity.
  - eapply run_Vis with (k := fun y => ITree.bind (h y) k); [| exact (IH Hk)].
    rewrite observe_bind, E. reflexivity.
Qed.

Lemma run_bind_inv {A B : Type} (t : itree adbE A) (k : A -> itree adbE B)
    tr r :
  run (ITree.bind t k) tr r ->
  exists tr1 a tr2, tr = tr1 ++ tr2 /\ run t tr1 a /\ run (k a) tr2 r.
Proof.
  intros H. remember (ITree.bind t k) as b eqn:Eb.
  revert t Eb.
  induction H as [b r E | b u tr r E Hu IH | b X e h x tr r E Hh IH];
    intros t ->; rewrite observe_bind in E;
    destruct (observe t) as [a | v | Y e' h'] eqn:Et; try discriminate.
  - exists [], a, []. repeat split.
    + now constructor.
    + now constructor.
  - exists [], a, tr. repeat split.
    + now constructor.
    + eapply run_Tau; eauto.
  - injection E as <-.
    destruct (IH v eq_refl) as (tr1 & a & tr2 & -> & H1 & H2).
    exists tr1, a, tr2. repeat split; auto.
    eapply run_Tau; eauto.
  - exists [], a, (Step e x :: tr). repeat split.
    + now constructor.
    + eapply run_Vis; eauto.
  - revert x Hh IH.
    refine (match E in _ = o
                  return match o with
                         | VisF e0 h0 => forall x, run (h0 x) tr r -> _ -> _
                         | _ => True
                         end
            with eq_refl => _ end).
    intros x _ IH.
    destruct (IH (h' x) eq_refl) as (tr1 & a & tr2 & -> & H1 & H2).
    exists (Step e' x :: tr1), a, tr2. repeat split; auto.
    eapply run_Vis; eauto.
Qed.

Lemma run_bind_iff {A B : Type} (t : itree adbE A) (k : A -> itree adbE B)
    tr r :
  run (ITree.bind t k) tr r <->
  exists tr1 a tr2, tr = tr1 ++ tr2 /\ run t tr1 a /\ run (k a) tr2 r.
Proof.
  split.
  - apply run_bind_inv.
  - intros (tr1 & a & tr2 & -> & H1 & H2). eapply run_bind; eauto.
Qed.

Lemma run_call_iff {X : Type} (e : adbE X) tr r :
  run (call e) tr r <-> tr = [Step e r].
Proof.
  unfold call, ITree.trigger. rewrite run_Vis_iff. split.
  - intros (x & tr' & -> & H). apply run_Ret_iff in H as [-> ->]. reflexivity.
  - intros ->. exists r, []. split; [reflexivity |]. now apply run_Ret_iff.
Qed.

(** A call followed by a continuation: one step, then a run of the
    continuation on the answer. *)
Lemma run_call_bind_iff {X B : Type} (e : adbE X) (k : X -> itree adbE B)
    tr r :
  run (ITree.bind (call e) k) tr r <->
  exists x tr', tr = Step e x :: tr' /\ run (k x) tr' r.
Proof.
  rewrite run_bind_iff. split.
  - intros (tr1 & a & tr2 & -> & H1 & H2).
    apply run_call_iff in H1 as ->. eauto.
  - intros (x & tr' & -> & H). exists [Step e x], x, tr'.
    repeat split; auto. now apply run_call_iff.
Qed.

Lemma run_defer_iff {A X : Type} (cleanup : adbE X) (body : itree adbE A)
    tr r :
  run (defer (call cleanup) body) tr r <->
  exists tr' c, tr = tr' ++ [Step cleanup c] /\ run body tr' r.
Proof.
  unfold defer. rewrite run_bind_iff. split.
  - intros (tr1 & a & tr2 & -> & H1 & H2).
    apply run_call_bind_iff in H2 as (c & tr' & -> & H2).
    apply run_Ret_iff in H2 as [-> ->]. eauto.
  - intros (tr' & c & -> & H). exists tr', r, [Step cleanup c].
    repeat split; auto. apply run_call_bind_iff.
    exists c, []. split; auto. now apply run_Ret_iff.
Qed.

Lemma run_iter_iff {A B : Type} (body : A -> itree adbE (A + B)) (i : A)
    tr r :
  run (ITree.iter body i) tr r <->
  exists tr1 lr tr2, tr = tr1 ++ tr2 /\ run (body i) tr1 lr /\
    match lr with
    | inl l => run (ITree.iter body l) tr2 r
    | inr b => tr2 = [] /\ r = b
    end.
Proof.
  transitivity (run (ITree.bind (body i) (fun lr =>
                       match lr with
                       | inl l => Tau (ITree.iter body l)
                       | inr b => Ret b
                       end)) tr r).
  { split; apply run_observe; [| symmetry]; apply observe_iter. }
  rewrite run_bind_iff. split.
  - intros (tr1 & lr & tr2 & -> & H1 & H2). exists tr1, lr, tr2.
    repeat split; auto. destruct lr.
    + now apply run_Tau_iff.
    + now apply run_Ret_iff.
  - intros (tr1 & lr & tr2 & -> & H1 & H2). exists tr1, lr, tr2.
    repeat split; auto. destruct lr.
    + now apply run_Tau_iff.
    + now apply run_Ret_iff.
Qed.

(** Two steps of the same call that are equal got the same answer. *)
Lemma Step_inj {X : Type} (e : adbE X) (x y : X) :
  Step e x = Step e y -> x = y.
Proof.
  intros H. apply (f_equal step_value) in H. cbn in H.
  destruct e; cbn in H; try (injection H; auto); destruct x.
Qed.

(** What the scripted run computes is a run. *)
Lemma exec_run {R : Type} fuel (t : itree adbE R) answers tr r :
  exec fuel t answers = Some (tr, r) -> run t tr r.
Proof.
  revert t answers tr r.
  induction fuel as [| fuel IH]; intros t answers tr r H; [discriminate |].
  cbn [exec] in H. destruct (observe t) as [r' | u | X e k] eqn:E.
  - injection H as <- <-. now apply run_Ret.
  - apply run_Tau with u; [exact E | now apply IH with answers].
  - destruct answers as [| v rest]; [discriminate |].
    destruct (answer_of e v) as [x |]; [| discriminate].
    destruct (exec fuel (k x) rest) as [[tr' r'] |] eqn:Ek; [| discriminate].
    injection H as <- <-.
    apply run_Vis with k; [exact E | now apply IH with rest].
Qed.

(** ** The device transport *)

Lemma CreateDeviceTransport_iff d tr r :
  run (CreateDeviceTransport d) tr r <-> handshake d tr r.
Proof.
  unfold CreateDeviceTransport. fold (address d).
  rewrite run_call_bind_iff. split.
  - intros ([tp [e |]] & tr1 & -> & H); cbn in H.
    + apply run_Ret_iff in H as [-> ->]. constructor.
    + apply run_call_bind_iff in H as ([e |] & tr2 & -> & H).
      * apply run_Ret_iff in H as [-> ->]. constructor.
      * apply run_call_bind_iff in H as (err & tr3 & -> & H).
        apply run_Ret_iff in H as [-> ->]. constructor.
  - intros H. destruct H as [tp e | tp e | tp err].
    + eexists (tp, Some e), []. split; [reflexivity |]. now apply run_Ret_iff.
    + eexists (tp, None), _. split; [reflexivity |]. cbn.
      apply run_call_bind_iff. eexists (Some e), []. split; [reflexivity |].
      now apply run_Ret_iff.
    + eexists (tp, None), _. split; [reflexivity |]. cbn.
      apply run_call_bind_iff. eexists None, _. split; [reflexivity |].
      apply run_call_bind_iff. eexists err, []. split; [reflexivity |].
      now apply run_Ret_iff.
Qed.

(** Peel one call, or the final [Ret], off a run in hypothesis [H]. *)
Ltac run_next H :=
  first
    [ apply run_Ret_iff in H as [-> ->]
    | apply run_call_iff in H as ->
    | let a := fresh "a" in
      let tr := fresh "tr" in
      apply run_call_bind_iff in H as (a & tr & -> & H); cbn in H ].

(** Build the run of a closed program along a given list of steps. *)
Ltac run_along :=
  repeat first
    [ apply run_Ret; cbn; reflexivity
    | eapply run_Vis; [cbn; reflexivity | cbn]
    | eapply run_Tau; [cbn; reflexivity | cbn]
    | apply run_Ret; lazy; reflexivity
    | eapply run_Vis; [lazy; reflexivity |]
    | eapply run_Tau; [lazy; reflexivity |] ].

(** The shape shared by the operations on a device. *)
Lemma run_device_session {A : Type} d (fail : error -> A)
    (fail0 : TransportPtr * error -> A)
    (ex : TransportPtr * error -> itree adbE A)
    (spec : TransportPtr -> list step -> A -> Prop) :
  (forall tp e, fail0 (tp, e) = fail e) ->
  (forall tp tr r, run (ex (tp, None)) tr r <-> spec tp tr r) ->
  forall tr r,
    run (r0 <- CreateDeviceTransport d ;;
         match snd r0 with
         | Some _ => Ret (fail0 r0)
         | None => ex r0
         end) tr r
    <-> device_session d fail spec tr r.
Proof.
  intros Hfail Hex tr r. rewrite run_bind_iff. split.
  - intros (tr0 & [tp err] & tr1 & -> & H0 & H1).
    apply CreateDeviceTransport_iff in H0. destruct err as [e |]; cbn in H1.
    + run_next H1. rewrite app_nil_r, Hfail.
      now apply device_refused with (tp, Some e).
    + apply (proj1 (Hex tp _ _)) in H1. now apply device_selected with tp.
  - intros [tr0 [tp err] e H0 E | tr0 tp rest r' H0 H1]; cbn in *.
    + subst err. exists tr0, (tp, Some e), []. rewrite app_nil_r.
      repeat split; [now apply CreateDeviceTransport_iff |].
      cbn. rewrite Hfail. now apply run_Ret_iff.
    + exists tr0, (tp, None), rest.
      repeat split; [now apply CreateDeviceTransport_iff |].
      cbn. now apply Hex.
Qed.

(** A deferred close of the transport. *)
Lemma run_closing {A : Type} tp (ex : itree adbE A)
    (spec : TransportPtr -> list step -> A -> Prop) :
  (forall tr r, run ex tr r <-> spec tp tr r) ->
  forall tr r,
    run (defer (call (Transport_Close tp)) ex) tr r <-> closing spec tp tr r.
Proof.
  intros Hex tr r. rewrite run_defer_iff. split.
  - intros (body & c & -> & H). constructor. now apply Hex.
  - intros [body r' c H]. exists body, c. split; auto. now apply Hex.
Qed.

Lemma run_sync_session {A : Type} tp (fail : error -> A)
    (fail0 : syncTransport * error -> A)
    (ex : syncTransport * error -> itree adbE A)
    (spec : syncTransport -> list step -> A -> Prop) :
  (forall sync e, fail0 (sync, e) = fail e) ->
  (forall sync tr r, run (ex (sync, None)) tr r <-> spec sync tr r) ->
  forall tr r,
    run (rs <- call (Transport_CreateSyncTransport tp) ;;
         match snd rs with
         | Some _ => Ret (fail0 rs)
         | None => defer (call (sync_Close (fst rs))) (ex rs)
         end) tr r
    <-> sync_session fail spec tp tr r.
Proof.
  intros Hfail Hex tr r. rewrite run_call_bind_iff. split.
  - intros ([sync [e |]] & tr1 & -> & H); cbn in H.
    + run_next H. rewrite Hfail. constructor.
    + apply run_defer_iff in H as (body & c & -> & H).
      apply Hex in H. now constructor.
  - intros [sync e | sync body r' c H].
    + exists (sync, Some e), []. split; auto. cbn. rewrite Hfail.
      now apply run_Ret_iff.
    + exists (sync, None), (body ++ [Step (sync_Close sync) c]). split; auto.
      cbn. apply run_defer_iff. exists body, c. split; auto. now apply Hex.
Qed.

(** ** The operations, as sets of runs *)

Lemma executeCommand_iff d command onlyVerifyResponse tr r :
  run (executeCommand d command onlyVerifyResponse) tr r <->
  device_session d (fun e => (None, e))
    (closing (executeCommand_exchange command
                (index0 onlyVerifyResponse false)))
    tr r.
Proof.
  unfold executeCommand. apply run_device_session; [reflexivity |].
  clear tr r. intros tp tr r. cbn [fst snd]. apply run_closing.
  clear tr r. intros tr r.
  assert (E : index0 (if (length onlyVerifyResponse =? 0)%nat then [false]
                      else onlyVerifyResponse) false
              = index0 onlyVerifyResponse false)
    by (destruct onlyVerifyResponse; reflexivity).
  rewrite E. clear E. split.
  - intros H. run_next H. destruct a as [e |].
    + run_next H. constructor.
    + run_next H. destruct a as [e |].
      * run_next H. constructor.
      * destruct (index0 onlyVerifyResponse false) eqn:E.
        -- run_next H. now constructor.
        -- run_next H. destruct r. now constructor.
  - intros [e | e | E | raw err E]; try rewrite E; run_along.
Qed.

Lemma Time_eqb_eq a b : Time_eqb a b = true <-> a = b.
Proof.
  unfold Time_eqb. destruct a as [w1 e1 l1], b as [w2 e2 l2]; cbn.
  rewrite !andb_true_iff, !Z.eqb_eq. split.
  - intros [[-> ->] H]. destruct l1, l2; try discriminate; auto.
    apply Pos.eqb_eq in H. now subst.
  - intros [= -> -> ->]. repeat split. destruct l2; auto. apply Pos.eqb_refl.
Qed.

Lemma DeviceFileInfo_eqb_eq a b : DeviceFileInfo_eqb a b = true <-> a = b.
Proof.
  unfold DeviceFileInfo_eqb. destruct a as [n1 m1 s1 t1], b as [n2 m2 s2 t2].
  cbn. rewrite !andb_true_iff, !Z.eqb_eq, Time_eqb_eq, String.eqb_eq. split.
  - intros [[[-> ->] ->] ->]. reflexivity.
  - intros [= -> -> -> ->]. auto.
Qed.

Lemma DeviceFileInfo_eqb_neq a b : DeviceFileInfo_eqb a b = false <-> a <> b.
Proof.
  rewrite <- DeviceFileInfo_eqb_eq. destruct (DeviceFileInfo_eqb a b); split;
    congruence.
Qed.

#[local] Arguments DeviceFileInfo_eqb : simpl never.

Lemma List_loop_iff sync acc tr r :
  run (List_loop sync acc) tr r <-> List_reads sync acc tr r.
Proof.
  unfold List_loop. split.
  - revert acc. induction tr as [| s tr IH]; intros acc H;
      apply run_iter_iff in H as (tr1 & lr & tr2 & E & H1 & H2);
      run_next H1; try discriminate E.
    injection E as -> ->. destruct a as [entry [e |]]; cbn in H1.
    + run_next H1. destruct H2 as [-> ->]. constructor.
    + destruct (DeviceFileInfo_eqb entry zeroDeviceFileInfo) eqn:Ez;
        run_next H1.
      * destruct H2 as [-> ->]. constructor.
        now apply DeviceFileInfo_eqb_eq.
      * apply reads_more; [now apply DeviceFileInfo_eqb_neq | now apply IH].
  - induction 1 as [acc entry e | acc entry Ez | acc entry tr r Ez H IH];
      apply run_iter_iff.
    + eexists [_], (inr (acc, Some e)), []. repeat split. run_along.
    + apply DeviceFileInfo_eqb_eq in Ez.
      eexists [_], (inr (acc, None)), []. repeat split.
      apply run_call_bind_iff. exists (entry, None), []. split; auto.
      cbn. rewrite Ez. now apply run_Ret_iff.
    + apply DeviceFileInfo_eqb_neq in Ez.
      eexists [_], (inl (append acc entry)), tr. repeat split; [| exact IH].
      apply run_call_bind_iff. exists (entry, None), []. split; auto.
      cbn. rewrite Ez. now apply run_Ret_iff.
Qed.

Lemma List_iff d remotePath tr r :
  run (List d remotePath) tr r <->
  device_session d (fun e => (None, e))
    (closing (sync_session (fun e => (None, e)) (List_exchange remotePath)))
    tr r.
Proof.
  unfold List. apply run_device_session; [reflexivity |].
  clear tr r. intros tp tr r. cbn [fst snd]. apply run_closing.
  clear tr r. intros tr r.
  apply run_sync_session; [reflexivity |].
  clear tr r. intros sync tr r. cbn. split.
  - intros H. run_next H. destruct a as [e |].
    + run_next H. constructor.
    + constructor. now apply List_loop_iff.
  - intros [e | tr' r' H].
    + run_along.
    + apply run_call_bind_iff. exists None, tr'. split; auto.
      now apply List_loop_iff.
Qed.

Lemma Push_iff d source remotePath modification mode tr r :
  run (Push d source remotePath modification mode) tr r <->
  device_session d (fun e => e)
    (closing (sync_session (fun e => e)
       (Push_exchange source
          (remotePath +:+ "," +:+
             fmt_d (index0 mode DefaultFileMode))
          (wrap_uint32 (Unix modification))))) tr r.
Proof.
  unfold Push. apply run_device_session; [reflexivity |].
  clear tr r. intros tp tr r. cbn [fst snd]. apply run_closing.
  clear tr r. intros tr r.
  apply run_sync_session; [reflexivity |].
  clear tr r. intros sync tr r. cbn.
  assert (E : index0 (if (length mode =? 0)%nat then [DefaultFileMode]
                      else mode) 0 = index0 mode DefaultFileMode)
    by (destruct mode; reflexivity).
  rewrite E. clear E. split.
  - intros H. run_next H. destruct a as [e |]; [run_next H; constructor |].
    run_next H. destruct a as [e |]; [run_next H; constructor |].
    run_next H. destruct a as [e |]; [run_next H; constructor |].
    run_next H. run_next H. constructor.
  - intros [e | e | e | err]; run_along.
Qed.

Lemma Pull_iff d remotePath dest tr r :
  run (Pull d remotePath dest) tr r <->
  device_session d (fun e => e)
    (closing (sync_session (fun e => e) (Pull_exchange remotePath dest)))
    tr r.
Proof.
  unfold Pull. apply run_device_session; [reflexivity |].
  clear tr r. intros tp tr r. cbn [fst snd]. apply run_closing.
  clear tr r. intros tr r.
  apply run_sync_session; [reflexivity |].
  clear tr r. intros sync tr r. cbn. split.
  - intros H. run_next H. destruct a as [e |]; [run_next H; constructor |].
    run_next H. constructor.
  - intros [e | err]; run_along.
Qed.

Lemma ShellStream_iff d cmd tr r :
  run (ShellStream d cmd) tr r <->
  device_session d (fun e => (None, None, e)) (ShellStream_exchange cmd) tr r.
Proof.
  unfold ShellStream. apply run_device_session; [reflexivity |].
  clear tr r. intros tp tr r. cbn [fst snd]. split.
  - intros H. run_next H. destruct a as [e |].
    + run_next H. run_next H. constructor.
    + run_next H. destruct a as [e |].
      * run_next H. run_next H. constructor.
      * destruct tp as [t |].
        -- run_next H. now constructor.
        -- unfold panic in H. run_next H. destruct a.
  - intros [e c | e c | t ->]; run_along.
Qed.

Lemma perform_iff d {R : Type} (op : operation R) tr r :
  run (perform d op) tr r <->
  device_session d (failure op) (exchange_of op) tr r.
Proof.
  destruct op; cbn [perform failure exchange_of].
  - apply executeCommand_iff.
  - apply List_iff.
  - apply Push_iff.
  - apply Pull_iff.
  - apply ShellStream_iff.
Qed.

(** ** Steps and selections *)

Lemma cons_eq_inv {A : Type} (a b : A) (l m : list A) :
  a :: l = b :: m -> a = b /\ l = m.
Proof. intros H. now injection H. Qed.

(** Compare two lists of steps by the answers of their steps. *)
Ltac same_steps H :=
  cbn in H;
  repeat
    (let E := fresh "E" in
     apply cons_eq_inv in H as [E H];
     apply (f_equal step_value) in E; cbn in E);
  simplify_eq.

(** A run has one selection of the device at its head. *)
Lemma handshake_unique d tr0 r0 rest tr0' r0' rest' :
  handshake d tr0 r0 -> handshake d tr0' r0' ->
  tr0 ++ rest = tr0' ++ rest' ->
  tr0 = tr0' /\ r0 = r0' /\ rest = rest'.
Proof.
  intros H H' E. destruct H, H'; same_steps E; auto.
Qed.

Lemma handshake_selected d tr0 tp :
  handshake d tr0 (tp, None) <-> tr0 = selected d tp.
Proof.
  split.
  - intros H. inversion H; subst. reflexivity.
  - intros ->. constructor.
Qed.

(** The selection of a device closes nothing, also when it fails. *)
Lemma handshake_closes_nothing d tr0 r0 :
  handshake d tr0 r0 -> Forall (fun s => closes_transport s = false) tr0.
Proof. destruct 1; repeat constructor. Qed.

(** ** Directory entries *)

(** C6: [IsDir] answers true exactly when bit 14 of the mode, the bit
    [1<<14], is set. *)
Theorem IsDir_iff_bit_14 (info : DeviceFileInfo) :
  IsDir info = true <-> Z.testbit (Mode info) 14 = true.
Proof.
  unfold IsDir. rewrite Z.eqb_eq, Z.shiftl_1_l. split.
  - intros H. apply (f_equal (fun z => Z.testbit z 14)) in H.
    rewrite Z.land_spec, Z.pow2_bits_true, andb_true_r in H by lia.
    exact H.
  - intros H. apply Z.bits_inj'. intros n Hn.
    rewrite Z.land_spec, Z.pow2_bits_eqb by lia.
    destruct (Z.eqb_spec 14 n) as [<- | _].
    + now rewrite H.
    + apply andb_false_r.
Qed.

Example IsDir_directory : IsDir entry_b = true.
Proof. reflexivity. Qed.

Example IsDir_file : IsDir entry_a = false.
Proof. reflexivity. Qed.

(** ** Host-side operations *)

(** The map of the source and the mapping of the specification agree. *)
Lemma deviceStateConv_state_of_reply k :
  deviceStateConv k = state_of_reply k.
Proof.
  unfold deviceStateConv, state_of_reply, deviceStateStrings.
  destruct (String.eqb_spec k "device") as [-> | H1]; [reflexivity |].
  destruct (String.eqb_spec k "") as [-> | H2]; [reflexivity |].
  destruct (String.eqb_spec k "offline") as [-> | H3]; [reflexivity |].
  rewrite !lookup_insert_ne, lookup_empty by congruence. reflexivity.
Qed.

Lemma State_iff d tr r :
  run (State d) tr r <->
  exists reply,
    tr = [host_step d "get-state" [] reply] /\
    r = (deviceStateConv (fst reply), snd reply).
Proof.
  unfold State, host_step. split.
  - intros H. run_next H. run_next H. eauto.
  - intros (reply & -> & ->). run_along.
Qed.

(** C10: [State] returns the state that the fixed mapping gives for the
    reply of the server ("device" online, "" disconnected, "offline"
    offline, anything else UNKNOWN), together with the error of the
    command, whether that error is nil or not. *)
Theorem State_maps_the_reply d tr r :
  run (State d) tr r <->
  exists (reply : string) (err : error),
    tr = [host_step d "get-state" [] (reply, err)] /\
    r = (state_of_reply reply, err).
Proof.
  rewrite State_iff. split.
  - intros ([reply err] & -> & ->). exists reply, err.
    now rewrite deviceStateConv_state_of_reply.
  - intros (reply & err & -> & ->). exists (reply, err).
    now rewrite deviceStateConv_state_of_reply.
Qed.

Example State_with_error :
  run (State dev0)
    [host_step dev0 "get-state" [] ("device", Some "read: timeout")]
    ("online", Some "read: timeout").
Proof. run_along. Qed.

Lemma forward_command_subcommand d local remote noRebind :
  forward_command d local remote noRebind =
  "host-serial:" +:+ serial d +:+ ":" +:+
    forward_subcommand local remote (passed_true noRebind).
Proof.
  unfold forward_command, forward_subcommand.
  destruct noRebind as [| [|] rest]; reflexivity.
Qed.

(** C7: [State], [Forward], [RawForward] and [ForwardKill] make one call,
    to the client's [executeCommand], with the command
    [host-serial:<serial>:<subcommand>]: get-state,
    forward:[norebind:]<local>;<remote> (for [Forward] with both ends as
    tcp:<port>, and with norebind exactly when the optional flag was passed
    as true), killforward:<local>.  No step of theirs opens a transport or
    sends on one, so no [host:transport:<serial>] is sent. *)
Theorem host_operations_send_host_serial d {R : Type}
    (op : host_operation R) tr r :
  (run (perform_host d op) tr r <->
   exists reply,
     tr = [host_step d (subcommand_of op) (verify_only op) reply] /\
     r = host_result op reply) /\
  (run (perform_host d op) tr r ->
   Forall (fun s => uses_transport s = false) tr).
Proof.
  assert (E : run (perform_host d op) tr r <->
              exists reply,
                tr = [host_step d (subcommand_of op) (verify_only op) reply] /\
                r = host_result op reply).
  { destruct op; cbn [perform_host subcommand_of verify_only host_result].
    - apply State_iff.
    - unfold Forward, host_step. rewrite forward_command_subcommand.
      split.
      + intros H. run_next H. run_next H. eauto.
      + intros (reply & -> & ->). run_along.
    - unfold RawForward, host_step. rewrite forward_command_subcommand.
      split.
      + intros H. run_next H. run_next H. eauto.
      + intros (reply & -> & ->). run_along.
    - unfold ForwardKill, host_step. split.
      + intros H. run_next H. run_next H. eauto.
      + intros (reply & -> & ->). run_along. }
  split; [exact E |].
  intros H. apply E in H as (reply & -> & _). repeat constructor.
Qed.

Example Forward_norebind :
  run (Forward dev0 8080 80 [true])
    [Step (Client_executeCommand (adbClient dev0)
             "host-serial:emulator-5554:forward:norebind:tcp:8080;tcp:80"
             [true]) ("", None)]
    None.
Proof. run_along. Qed.

Example Forward_rebind :
  run (Forward dev0 8080 80 [false])
    [Step (Client_executeCommand (adbClient dev0)
             "host-serial:emulator-5554:forward:tcp:8080;tcp:80"
             [true]) ("", None)]
    None.
Proof. run_along. Qed.

(** ** Operations on a device *)

Lemma device_session_iff {A : Type} d (fail : error -> A)
    (exchange : TransportPtr -> list step -> A -> Prop) tr r :
  device_session d fail exchange tr r <->
  exists tr0 r0 rest,
    handshake d tr0 r0 /\ tr = tr0 ++ rest /\
    match snd r0 with
    | Some e => rest = [] /\ r = fail (Some e)
    | None => exchange (fst r0) rest r
    end.
Proof.
  split.
  - intros [tr0 r0 e H E | tr0 tp rest r' H Hx].
    + exists tr0, r0, []. rewrite app_nil_r, E. auto.
    + exists tr0, (tp, None), rest. auto.
  - intros (tr0 & [tp [e |]] & rest & H & -> & Hx); cbn in Hx.
    + destruct Hx as [-> ->]. rewrite app_nil_r.
      now apply device_refused with (tp, Some e).
    + now apply device_selected with tp.
Qed.

(** On a selected device the session is the exchange. *)
Lemma device_session_selected {A : Type} d (fail : error -> A)
    (exchange : TransportPtr -> list step -> A -> Prop) tp rest r :
  device_session d fail exchange (selected d tp ++ rest) r <->
  exchange tp rest r.
Proof.
  assert (Hs : handshake d (selected d tp) (tp, None)) by constructor.
  split.
  - intros H. apply device_session_iff in H
      as (tr0 & r0 & rest' & H0 & E & Hx).
    destruct (handshake_unique _ _ _ _ _ _ _ Hs H0 E) as (_ & <- & <-).
    exact Hx.
  - intros H. now apply device_selected with tp.
Qed.

Lemma closing_iff {A : Type}
    (exchange : TransportPtr -> list step -> A -> Prop) tp body c r :
  closing exchange tp (body ++ [Step (Transport_Close tp) c]) r <->
  exchange tp body r.
Proof.
  split.
  - intros H.
    remember (body ++ [Step (Transport_Close tp) c]) as tr eqn:E.
    destruct H as [body' r' c' Hx].
    apply app_inj_tail in E as [-> _]. exact Hx.
  - intros H. now constructor.
Qed.

Lemma sync_session_held_iff {A : Type} (fail : error -> A)
    (exchange : syncTransport -> list step -> A -> Prop) tp sync body c r :
  sync_session fail exchange tp
    (Step (Transport_CreateSyncTransport tp) (sync, None)
       :: body ++ [Step (sync_Close sync) c]) r <->
  exchange sync body r.
Proof.
  split.
  - intros H.
    remember (Step (Transport_CreateSyncTransport tp) (sync, None)
                :: body ++ [Step (sync_Close sync) c]) as tr eqn:E.
    destruct H as [sync' e | sync' body' r' c' Hx].
    + same_steps E.
    + apply cons_eq_inv in E as [E1 E2].
      apply (f_equal step_value) in E1. cbn in E1.
      apply app_inj_tail in E2 as [-> _]. simplify_eq. exact Hx.
  - intros H. now constructor.
Qed.

(** With the sync transport created, an operation is its exchange on it. *)
Lemma sync_steps_iff {A : Type} d (fail fail' : error -> A)
    (exchange : syncTransport -> list step -> A -> Prop) tp sync body c1 c2
    r :
  device_session d fail (closing (sync_session fail' exchange))
    (sync_steps d tp sync body c1 c2) r <->
  exchange sync body r.
Proof.
  unfold sync_steps. rewrite device_session_selected.
  change (Step (Transport_CreateSyncTransport tp) (sync, None)
            :: body ++ [Step (sync_Close sync) c1;
                        Step (Transport_Close tp) c2])
    with ((Step (Transport_CreateSyncTransport tp) (sync, None) :: body)
            ++ [Step (sync_Close sync) c1] ++ [Step (Transport_Close tp) c2]).
  rewrite app_assoc, closing_iff.
  apply sync_session_held_iff.
Qed.

(** C4: every operation on a device (a command through [executeCommand],
    [List], [Push], [Pull], [ShellStream]) begins by opening a transport to
    the address of the client, sending [host:transport:<serial>] on that
    transport and verifying the response; its own exchange comes after
    these steps, and when one of them fails the operation fails with that
    error and exchanges nothing. *)
Theorem operations_begin_with_selection d {R : Type} (op : operation R)
    tr r :
  run (perform d op) tr r <->
  exists tr0 r0 rest,
    handshake d tr0 r0 /\ tr = tr0 ++ rest /\
    match snd r0 with
    | Some e => rest = [] /\ r = failure op (Some e)
    | None => exchange_of op (fst r0) rest r
    end.
Proof.
  rewrite perform_iff. apply device_session_iff.
Qed.

Example List_unknown_device :
  run (List dev0 "/sdcard")
    [Step (NewTransport "localhost:5037") (tp0, None);
     Step (Transport_Send tp0 "host:transport:emulator-5554") None;
     Step (Transport_VerifyResponse tp0)
       (Some "device 'emulator-5554' not found")]
    (None, Some "device 'emulator-5554' not found").
Proof. run_along. Qed.

(** Once the device is selected, [executeCommand], [List], [Push] and
    [Pull] end every run, failed or not, with the close of the transport:
    the deferred close covers every return that comes after it. *)
Theorem owned_transport_is_closed d {R : Type} (op : operation R) tp rest
    r :
  owns_transport op = true ->
  run (perform d op) (selected d tp ++ rest) r ->
  exists body c, rest = body ++ [Step (Transport_Close tp) c].
Proof.
  intros Ho H. apply perform_iff, device_session_selected in H.
  destruct op; try discriminate Ho; cbn [exchange_of] in H;
    destruct H as [body r' c _]; eauto.
Qed.

(** The transport is not closed when the selection of the device fails
    after the transport was opened. *)
Lemma unselected_transport_stays_open d {R : Type} (op : operation R)
    tr0 r0 e :
  handshake d tr0 r0 -> snd r0 = Some e ->
  run (perform d op) tr0 (failure op (Some e)) /\
  Forall (fun s => closes_transport s = false) tr0.
Proof.
  intros H E. split.
  - apply perform_iff. now apply device_refused with r0.
  - now apply handshake_closes_nothing with d r0.
Qed.

Lemma owned_transport_is_closed_witness :
  owns_transport (op_executeCommand "shell:ls" []) = true /\
  run (perform dev0 (op_executeCommand "shell:ls" []))
    (selected dev0 tp0 ++
     [Step (Transport_Send tp0 "shell:ls") None;
      Step (Transport_VerifyResponse tp0) (Some "closed");
      Step (Transport_Close tp0) None])
    (None, Some "closed") /\
  exists body c,
    [Step (Transport_Send tp0 "shell:ls") None;
     Step (Transport_VerifyResponse tp0) (Some "closed");
     Step (Transport_Close tp0) None]
    = body ++ [Step (Transport_Close tp0) c].
Proof.
  assert (H : run (perform dev0 (op_executeCommand "shell:ls" []))
                (selected dev0 tp0 ++
                 [Step (Transport_Send tp0 "shell:ls") None;
                  Step (Transport_VerifyResponse tp0) (Some "closed");
                  Step (Transport_Close tp0) None])
                (None, Some "closed")) by (cbn; run_along).
  split; [reflexivity | split; [exact H |]].
  exact (owned_transport_is_closed dev0 (op_executeCommand "shell:ls" [])
           tp0 _ _ eq_refl H).
Defined.

(** A selection that fails ends the run: the operation returns the error
    with nil results and makes no further call. *)
Lemma refused_selection_iff d {R : Type} (op : operation R) tr0 r0 e rest
    r :
  handshake d tr0 r0 -> snd r0 = Some e ->
  run (perform d op) (tr0 ++ rest) r <->
  rest = [] /\ r = failure op (Some e).
Proof.
  intros H0 E. rewrite perform_iff, device_session_iff. split.
  - intros (tr0' & r0' & rest' & H0' & Et & Hx).
    destruct (handshake_unique _ _ _ _ _ _ _ H0 H0' Et) as (_ & <- & <-).
    rewrite E in Hx. exact Hx.
  - intros [-> ->]. exists tr0, r0, []. rewrite E. auto.
Qed.

Lemma refused_handshake d tp e tr :
  tr = send_refused d tp e \/ tr = verify_refused d tp e ->
  exists r0, handshake d tr r0 /\ snd r0 = Some e.
Proof.
  intros [-> | ->]; eexists; (split; [constructor | reflexivity]).
Qed.

(** C5: [executeCommand], [List], [Push] and [Pull] do not close the
    transport on every failure that comes after it was created.  When the
    transport [tp] was opened and the send of [host:transport:<serial>]
    fails, or the verification of its response does, the operation returns
    that error at once: the run has no step after the failed one, and none
    of its steps closes [tp]. *)
Theorem failed_selection_leaves_transport_open d {R : Type}
    (op : operation R) tp e tr :
  owns_transport op = true ->
  tr = send_refused d tp e \/ tr = verify_refused d tp e ->
  (forall rest r,
     run (perform d op) (tr ++ rest) r <->
     rest = [] /\ r = failure op (Some e)) /\
  Forall (fun s => closes_transport s = false) tr.
Proof.
  intros _ Htr. destruct (refused_handshake d tp e tr Htr) as (r0 & H0 & E).
  split.
  - intros rest r. now apply refused_selection_iff with r0.
  - now apply handshake_closes_nothing with d r0.
Qed.

Lemma failed_selection_leaves_transport_open_witness :
  owns_transport (op_executeCommand "shell:ls" []) = true /\
  run (executeCommand dev0 "shell:ls" [])
    [Step (NewTransport "localhost:5037") (tp0, None);
     Step (Transport_Send tp0 "host:transport:emulator-5554") None;
     Step (Transport_VerifyResponse tp0) (Some "device offline")]
    (None, Some "device offline") /\
  Forall (fun s => closes_transport s = false)
    [Step (NewTransport "localhost:5037") (tp0, None);
     Step (Transport_Send tp0 "host:transport:emulator-5554") None;
     Step (Transport_VerifyResponse tp0) (Some "device offline")].
Proof.
  pose proof (failed_selection_leaves_transport_open dev0
                (op_executeCommand "shell:ls" []) tp0 "device offline" _
                eq_refl (or_intror eq_refl)) as [H F].
  split; [reflexivity | split; [| exact F]].
  exact (proj2 (H [] (None, Some "device offline")) (conj eq_refl eq_refl)).
Defined.

Example Push_send_refused :
  run (Push dev0 0%nat "/sdcard/a.txt" time0 [])
    [Step (NewTransport "localhost:5037") (tp0, None);
     Step (Transport_Send tp0 "host:transport:emulator-5554")
       (Some "broken pipe")]
    (Some "broken pipe").
Proof. run_along. Qed.

Lemma ShellStream_selected_iff d cmd tp rest r :
  run (ShellStream d cmd) (selected d tp ++ rest) r <->
  ShellStream_exchange cmd tp rest r.
Proof.
  rewrite ShellStream_iff. apply device_session_selected.
Qed.

(** On a selected device, [ShellStream] sends [shell:<cmd>] and verifies
    the response.  When both succeed it returns the transport and a scanner
    over its socket, and no step of the run has closed the transport; when
    the send or the verification fails, the close of the transport is the
    last step and the results are nil with the error. *)
Theorem ShellStream_keeps_or_closes d cmd tp rest r :
  run (ShellStream d cmd) (selected d tp ++ rest) r ->
  ShellStream_exchange cmd tp rest r /\
  match snd r with
  | None =>
      (exists t, tp = Some t /\
                 r = (Some t, Some (NewScanner (sock t)), None)) /\
      Forall (fun s => closes_transport s = false) (selected d tp ++ rest)
  | Some e =>
      fst r = (None, None) /\
      exists body c, rest = body ++ [Step (Transport_Close tp) c]
  end.
Proof.
  intros H. apply ShellStream_selected_iff in H. split; [exact H |].
  destruct H as [e c | e c | t ->]; cbn.
  - split; [reflexivity |]. now eexists [_], c.
  - split; [reflexivity |]. now eexists [_; _], c.
  - split; [eauto | repeat constructor].
Qed.

Lemma ShellStream_keeps_or_closes_witness :
  run (ShellStream dev0 "logcat")
    (selected dev0 tp0 ++
     [Step (Transport_Send tp0 "shell:logcat") None;
      Step (Transport_VerifyResponse tp0) None])
    (tp0, Some (NewScanner 3%nat), None) /\
  Forall (fun s => closes_transport s = false)
    (selected dev0 tp0 ++
     [Step (Transport_Send tp0 "shell:logcat") None;
      Step (Transport_VerifyResponse tp0) None]).
Proof.
  assert (H : run (ShellStream dev0 "logcat")
                (selected dev0 tp0 ++
                 [Step (Transport_Send tp0 "shell:logcat") None;
                  Step (Transport_VerifyResponse tp0) None])
                (tp0, Some (NewScanner 3%nat), None)) by (cbn; run_along).
  split; [exact H |].
  exact (proj2 (proj2 (ShellStream_keeps_or_closes dev0 "logcat" tp0 _ _ H))).
Defined.

(** C8: [ShellStream] does not close the transport on every failed send
    or verification.  When the transport [tp] was opened and the send of
    [host:transport:<serial>] fails, or the verification of its response
    does, [ShellStream] returns nil, nil and that error at once: the run
    has no step after the failed one, and none of its steps closes
    [tp]. *)
Theorem ShellStream_failed_selection_stays_open d cmd tp e tr :
  tr = send_refused d tp e \/ tr = verify_refused d tp e ->
  (forall rest r,
     run (ShellStream d cmd) (tr ++ rest) r <->
     rest = [] /\ r = (None, None, Some e)) /\
  Forall (fun s => closes_transport s = false) tr.
Proof.
  intros Htr. destruct (refused_handshake d tp e tr Htr) as (r0 & H0 & E).
  split.
  - intros rest r.
    now apply (refused_selection_iff d (op_ShellStream cmd)) with r0.
  - now apply handshake_closes_nothing with d r0.
Qed.

Lemma ShellStream_failed_selection_stays_open_witness :
  run (ShellStream dev0 "logcat")
    [Step (NewTransport "localhost:5037") (tp0, None);
     Step (Transport_Send tp0 "host:transport:emulator-5554")
       (Some "broken pipe")]
    (None, None, Some "broken pipe") /\
  Forall (fun s => closes_transport s = false)
    [Step (NewTransport "localhost:5037") (tp0, None);
     Step (Transport_Send tp0 "host:transport:emulator-5554")
       (Some "broken pipe")].
Proof.
  pose proof (ShellStream_failed_selection_stays_open dev0 "logcat" tp0
                "broken pipe" _ (or_introl eq_refl)) as [H F].
  split; [| exact F].
  exact (proj2 (H [] (None, None, Some "broken pipe"))
           (conj eq_refl eq_refl)).
Defined.

Example ShellStream_device_offline :
  run (ShellStream dev0 "logcat")
    [Step (NewTransport "localhost:5037") (tp0, None);
     Step (Transport_Send tp0 "host:transport:emulator-5554") None;
     Step (Transport_VerifyResponse tp0) (Some "device offline")]
    (None, None, Some "device offline").
Proof. run_along. Qed.

Example ShellStream_rejected :
  run (ShellStream dev0 "logcat")
    (selected dev0 tp0 ++
     [Step (Transport_Send tp0 "shell:logcat") None;
      Step (Transport_VerifyResponse tp0) (Some "closed");
      Step (Transport_Close tp0) None])
    (None, None, Some "closed").
Proof. cbn. run_along. Qed.

(** ** Sync operations *)

Lemma Push_sync_steps_iff d source remotePath modification mode tp sync body
    c1 c2 r :
  run (Push d source remotePath modification mode)
    (sync_steps d tp sync body c1 c2) r <->
  Push_exchange source
    (remotePath +:+ "," +:+ fmt_d (index0 mode DefaultFileMode))
    (wrap_uint32 (Unix modification)) sync body r.
Proof.
  rewrite Push_iff. apply sync_steps_iff.
Qed.

(** C3: on its sync transport, [Push] sends SEND with the payload
    [<remotePath>,<mode in decimal>], then streams the source, then sends
    the status DONE with the modification time as the uint32 of its Unix
    seconds, then verifies the status; a step that fails ends the exchange
    and its error is the result, and the result of the verification is the
    result otherwise. *)
Theorem Push_steps_in_order d source remotePath modification mode tp sync
    body c1 c2 r :
  let data := remotePath +:+ "," +:+ fmt_d (index0 mode DefaultFileMode) in
  let mtime := wrap_uint32 (Unix modification) in
  run (Push d source remotePath modification mode)
    (sync_steps d tp sync body c1 c2) r <->
  (exists e,
     r = Some e /\
     (body = [Step (sync_Send sync "SEND" data) (Some e)] \/
      body = [Step (sync_Send sync "SEND" data) None;
              Step (sync_SendStream sync source) (Some e)] \/
      body = [Step (sync_Send sync "SEND" data) None;
              Step (sync_SendStream sync source) None;
              Step (sync_SendStatus sync "DONE" mtime) (Some e)])) \/
  body = [Step (sync_Send sync "SEND" data) None;
          Step (sync_SendStream sync source) None;
          Step (sync_SendStatus sync "DONE" mtime) None;
          Step (sync_VerifyStatus sync) r].
Proof.
  intros data mtime. rewrite Push_sync_steps_iff. fold data mtime. split.
  - intros [e | e | e | err]; eauto 6.
  - intros [(e & -> & [-> | [-> | ->]]) | ->]; constructor.
Qed.

Example Push_default_mode :
  run (Push dev0 7%nat "/data/local/tmp/a.apk" time0 [])
    (sync_steps dev0 tp0 sync0
       [Step (sync_Send sync0 "SEND" "/data/local/tmp/a.apk,436") None;
        Step (sync_SendStream sync0 7%nat) None;
        Step (sync_SendStatus sync0 "DONE" 1664403200) None;
        Step (sync_VerifyStatus sync0) None]
       None None)
    None.
Proof. cbn. run_along. Qed.

Lemma List_reads_nonempty sync acc r : ~ List_reads sync acc [] r.
Proof. intros H. inversion H. Qed.

(** The reads of a listing whose entries [es] are all real, and their
    last answer. *)
Lemma List_reads_iff sync es acc last r :
  Forall (fun e => e <> zeroDeviceFileInfo) es ->
  List_reads sync (Some acc)
    (map (read_entry sync) es ++ [Step (sync_ReadDirectoryEntry sync) last])
    r <->
  match snd last with
  | Some e => r = (Some (acc ++ es), Some e)
  | None => fst last = zeroDeviceFileInfo /\ r = (Some (acc ++ es), None)
  end.
Proof.
  intros Hes. revert acc.
  induction Hes as [| e1 es He1 Hes IH]; intros acc; cbn [map app].
  - split.
    + intros H.
      remember [Step (sync_ReadDirectoryEntry sync) last] as tr eqn:E.
      remember (Some acc) as a eqn:Ea.
      destruct H as [a entry e | a entry Ez | a entry tr r Ez H].
      * same_steps E. cbn. now rewrite app_nil_r.
      * same_steps E. cbn. now rewrite app_nil_r.
      * apply cons_eq_inv in E as [_ ->].
        now apply List_reads_nonempty in H.
    + rewrite app_nil_r. destruct last as [entry [e |]]; cbn.
      * intros ->. constructor.
      * intros [-> ->]. now constructor.
  - specialize (IH (acc ++ [e1])). rewrite <- app_assoc in IH. cbn in IH.
    rewrite <- IH. split.
    + intros H.
      remember (read_entry sync e1
                  :: map (read_entry sync) es
                       ++ [Step (sync_ReadDirectoryEntry sync) last])
        as tr eqn:E.
      remember (Some acc) as a eqn:Ea.
      destruct H as [a entry e | a entry Ez | a entry tr r Ez H].
      * apply cons_eq_inv in E as [_ E]. now destruct es.
      * apply cons_eq_inv in E as [_ E]. now destruct es.
      * apply cons_eq_inv in E as [E ->].
        apply (f_equal step_value) in E. cbn in E. simplify_eq. exact H.
    + intros H. now apply reads_more.
Qed.

Lemma List_sync_steps_iff d remotePath tp sync answers c1 c2 r :
  run (List d remotePath)
    (sync_steps d tp sync (listing remotePath sync answers) c1 c2) r <->
  List_reads sync (Some []) answers r.
Proof.
  rewrite List_iff, sync_steps_iff. unfold listing. split.
  - intros H.
    remember (Step (sync_Send sync "LIST" remotePath) None :: answers)
      as tr eqn:E.
    destruct H as [e | tr r H].
    + same_steps E.
    + now apply cons_eq_inv in E as [_ ->].
  - intros H. now constructor.
Qed.

(** C2: when the peer delivers the entries [es], none of them the zero
    entry, and then the zero entry, [List] reads them in turn, stops at the
    zero entry and returns exactly [es], in the order delivered and without
    the zero entry. *)
Theorem List_returns_entries_in_order d remotePath tp sync es c1 c2 r :
  Forall (fun e => e <> zeroDeviceFileInfo) es ->
  run (List d remotePath)
    (sync_steps d tp sync
       (listing remotePath sync
          (map (read_entry sync) es ++ [read_entry sync zeroDeviceFileInfo]))
       c1 c2) r <->
  r = (Some es, None).
Proof.
  intros Hes. rewrite List_sync_steps_iff. unfold read_entry at 2.
  rewrite (List_reads_iff sync es [] _ r Hes). cbn. intuition.
Qed.

Lemma List_returns_entries_in_order_witness :
  Forall (fun e => e <> zeroDeviceFileInfo) [entry_a; entry_b] /\
  run (List dev0 "/sdcard")
    (sync_steps dev0 tp0 sync0
       (listing "/sdcard" sync0
          (map (read_entry sync0) [entry_a; entry_b]
             ++ [read_entry sync0 zeroDeviceFileInfo]))
       None None)
    (Some [entry_a; entry_b], None).
Proof.
  assert (H : Forall (fun e => e <> zeroDeviceFileInfo) [entry_a; entry_b])
    by (repeat constructor; discriminate).
  split; [exact H |].
  exact (proj2 (List_returns_entries_in_order dev0 "/sdcard" tp0 sync0
                  [entry_a; entry_b] None None _ H) eq_refl).
Defined.

(** C1: when a read fails after the entries [es] were read, [List] returns
    the error together with the entries [es], the ones read before the
    failure: the list is not dropped. *)
Theorem List_read_failure_keeps_entries d remotePath tp sync es entry e c1 c2
    r :
  Forall (fun e => e <> zeroDeviceFileInfo) es ->
  run (List d remotePath)
    (sync_steps d tp sync
       (listing remotePath sync
          (map (read_entry sync) es
             ++ [Step (sync_ReadDirectoryEntry sync) (entry, Some e)]))
       c1 c2) r <->
  r = (Some es, Some e).
Proof.
  intros Hes. rewrite List_sync_steps_iff.
  rewrite (List_reads_iff sync es [] _ r Hes). cbn. reflexivity.
Qed.

Lemma List_read_failure_keeps_entries_witness :
  Forall (fun e => e <> zeroDeviceFileInfo) [entry_a] /\
  run (List dev0 "/sdcard")
    (sync_steps dev0 tp0 sync0
       (listing "/sdcard" sync0
          (map (read_entry sync0) [entry_a]
             ++ [Step (sync_ReadDirectoryEntry sync0)
                   (zeroDeviceFileInfo, Some "EOF")]))
       None None)
    (Some [entry_a], Some "EOF").
Proof.
  assert (H : Forall (fun e => e <> zeroDeviceFileInfo) [entry_a])
    by (repeat constructor; discriminate).
  split; [exact H |].
  exact (proj2 (List_read_failure_keeps_entries dev0 "/sdcard" tp0 sync0
                  [entry_a] zeroDeviceFileInfo "EOF" None None _ H) eq_refl).
Defined.

Example List_read_failure_run :
  run (List dev0 "/sdcard")
    (selected dev0 tp0 ++
     [Step (Transport_CreateSyncTransport tp0) (sync0, None);
      Step (sync_Send sync0 "LIST" "/sdcard") None;
      Step (sync_ReadDirectoryEntry sync0) (entry_a, None);
      Step (sync_ReadDirectoryEntry sync0) (zeroDeviceFileInfo, Some "EOF");
      Step (sync_Close sync0) None;
      Step (Transport_Close tp0) None])
    (Some [entry_a], Some "EOF").
Proof. cbn. run_along. Qed.

(** ** Blank shell commands *)

Lemma IsSpace_runes r :
  IsSpace r = true ->
  In r [9; 10; 11; 12; 13; 32; 133; 160; 5760; 8192; 8193; 8194; 8195; 8196;
        8197; 8198; 8199; 8200; 8201; 8202; 8232; 8233; 8239; 8287; 12288].
Proof.
  unfold IsSpace. intros H.
  assert (r = 9 \/ r = 10 \/ r = 11 \/ r = 12 \/ r = 13 \/ r = 32 \/
          r = 133 \/ r = 160 \/ r = 5760 \/ 8192 <= r <= 8202 \/
          8232 <= r <= 8233 \/ r = 8239 \/ r = 8287 \/ r = 12288) as Hr.
  { destruct (wrap_uint32 r <=? 255);
      repeat (apply orb_true_iff in H as [H | H]);
      repeat (apply andb_true_iff in H as [? ?]); lia. }
  cbn. lia.
Qed.

Lemma length_ltb_2 (a b : Z) s :
  (Z.of_nat (length (a :: b :: s)) <? 2) = false.
Proof. apply Z.ltb_ge. cbn [length]. lia. Qed.

Lemma length_ltb_3 (a b c : Z) s :
  (Z.of_nat (length (a :: b :: c :: s)) <? 3) = false.
Proof. apply Z.ltb_ge. cbn [length]. lia. Qed.

(** A space decodes from its encoding, whatever follows. *)
Lemma DecodeRuneInString_space r s :
  IsSpace r = true ->
  DecodeRuneInString (EncodeRune r ++ s) = (r, length (EncodeRune r)) /\
  (0 < length (EncodeRune r))%nat.
Proof.
  intros H. apply IsSpace_runes in H. cbn in H.
  repeat (destruct H as [<- | H]); try contradiction;
    (split; [| cbn; lia]);
    match goal with
    | |- context [EncodeRune ?z] =>
        let v := eval vm_compute in (EncodeRune z) in
        change (EncodeRune z) with v
    end;
    cbn [app length]; unfold DecodeRuneInString;
    cbn - [Z.of_nat length];
    rewrite ?length_ltb_2, ?length_ltb_3; reflexivity.
Qed.

Lemma trimLeftSpace_spaces rs n :
  Forall (fun r => IsSpace r = true) rs ->
  (length (concat (map EncodeRune rs)) <= n)%nat ->
  trimLeftSpace n (concat (map EncodeRune rs)) = [].
Proof.
  intros Hrs. revert n.
  induction Hrs as [| r rs Hr Hrs IH]; intros n Hn.
  - destruct n; reflexivity.
  - cbn [map concat] in *. rewrite length_app in Hn.
    destruct (DecodeRuneInString_space r (concat (map EncodeRune rs)) Hr)
      as [Hd Hlen].
    destruct n as [| n]; [lia |]. cbn [trimLeftSpace].
    destruct (EncodeRune r ++ concat (map EncodeRune rs)) as [| b l] eqn:El.
    { apply (f_equal (@length Z)) in El. rewrite length_app in El.
      cbn in El. lia. }
    rewrite Hd, Hr, <- El.
    rewrite skipn_app, skipn_all, Nat.sub_diag. cbn [app skipn].
    apply IH. lia.
Qed.

Lemma TrimSpace_only_whitespace s : only_whitespace s -> TrimSpace s = "".
Proof.
  intros (rs & Hrs & E). unfold TrimSpace. rewrite E.
  rewrite trimLeftSpace_spaces by auto. reflexivity.
Qed.

Lemma shell_command_eq cmd args :
  (if (0 <? length args)%nat then cmd +:+ " " +:+ Join args " " else cmd)
  = shell_command cmd args.
Proof. destruct args; reflexivity. Qed.

(** C9: when the command with its arguments joined by spaces is empty or
    only white space, [RunShellCommandWithBytes] makes no call at all and
    returns a nil result with the error "adb shell: command cannot be
    empty"; [RunShellCommand] returns the same error. *)
Theorem blank_shell_command_is_refused d cmd args :
  only_whitespace (shell_command cmd args) ->
  (forall tr r,
     run (RunShellCommandWithBytes d cmd args) tr r <->
     tr = [] /\ r = (None, Some "adb shell: command cannot be empty")) /\
  (forall tr r,
     run (RunShellCommand d cmd args) tr r <->
     tr = [] /\ r = ("", Some "adb shell: command cannot be empty")).
Proof.
  intros H. apply TrimSpace_only_whitespace in H.
  assert (E : forall tr r,
             run (RunShellCommandWithBytes d cmd args) tr r <->
             tr = [] /\ r = (None, Some "adb shell: command cannot be empty")).
  { intros tr r. unfold RunShellCommandWithBytes.
    rewrite shell_command_eq, H. cbn. apply run_Ret_iff. }
  split; [exact E |].
  intros tr r. unfold RunShellCommand. rewrite run_bind_iff. split.
  - intros (tr1 & a & tr2 & -> & H1 & H2).
    apply E in H1 as [-> ->]. cbn in H2. now apply run_Ret_iff in H2.
  - intros [-> ->].
    exists [], (None, Some "adb shell: command cannot be empty"), [].
    repeat split; [now apply E | cbn; now apply run_Ret_iff].
Qed.

Lemma blank_shell_command_is_refused_witness :
  only_whitespace (shell_command " " ["  "]) /\
  run (RunShellCommandWithBytes dev0 " " ["  "]) []
    (None, Some "adb shell: command cannot be empty").
Proof.
  assert (H : only_whitespace (shell_command " " ["  "])).
  { exists [32; 32; 32; 32]. split; [repeat constructor | reflexivity]. }
  split; [exact H |].
  exact (proj2 (proj1 (blank_shell_command_is_refused dev0 " " ["  "] H)
                  [] _) (conj eq_refl eq_refl)).
Defined.

Example TrimSpace_keeps_inner_spaces : TrimSpace "  ls -l  " = "ls -l".
Proof. vm_compute. reflexivity. Qed.

Example RunShellCommand_sends_shell :
  run (RunShellCommandWithBytes dev0 "ls" ["-l"])
    (selected dev0 tp0 ++
     [Step (Transport_Send tp0 "shell:ls -l") None;
      Step (Transport_VerifyResponse tp0) None;
      Step (Transport_ReadBytesAll tp0) (Some "total 0", None);
      Step (Transport_Close tp0) None])
    (Some "total 0", None).
Proof. cbn. run_along. Qed.

(** U+00A0 and U+3000 are spaces; a lone continuation byte is not. *)
Example TrimSpace_unicode :
  TrimSpace (string_of_byte_list [194; 160; 108; 115; 227; 128; 128])
  = "ls" /\
  TrimSpace (string_of_byte_list [160; 108; 115])
  = string_of_byte_list [160; 108; 115].
Proof. split; vm_compute; reflexivity. Qed.

(** ** Scripted runs *)

(** The answers of a peer that selects the device, opens the sync mode,
    accepts LIST, delivers one entry and then fails. *)
Example List_read_failure_exec :
  exec 20 (List dev0 "/sdcard")
    [V_transport (tp0, None); V_error None; V_error None;
     V_sync (sync0, None); V_error None;
     V_entry (entry_a, None); V_entry (zeroDeviceFileInfo, Some "EOF");
     V_error None; V_error None]
  = Some (sync_steps dev0 tp0 sync0
            (listing "/sdcard" sync0
               [read_entry sync0 entry_a;
                Step (sync_ReadDirectoryEntry sync0)
                  (zeroDeviceFileInfo, Some "EOF")])
            None None,
          (Some [entry_a], Some "EOF")).
Proof. vm_compute. reflexivity. Qed.

(** The same peer, ending the listing with the zero entry after two
    entries; a third entry it could still deliver is never asked for. *)
Example List_two_entries_exec :
  exec 20 (List dev0 "/sdcard")
    [V_transport (tp0, None); V_error None; V_error None;
     V_sync (sync0, None); V_error None;
     V_entry (entry_a, None); V_entry (entry_b, None);
     V_entry (zeroDeviceFileInfo, None);
     V_error None; V_error None; V_entry (entry_a, None)]
  = Some (sync_steps dev0 tp0 sync0
            (listing "/sdcard" sync0
               [read_entry sync0 entry_a; read_entry sync0 entry_b;
                read_entry sync0 zeroDeviceFileInfo])
            None None,
          (Some [entry_a; entry_b], None)).
Proof. vm_compute. reflexivity. Qed.

(** A transport that cannot be opened: nothing else is called. *)
Example Pull_no_server_exec :
  exec 20 (Pull dev0 "/sdcard/a.txt" 9%nat)
    [V_transport (None, Some "connection refused")]
  = Some ([Step (NewTransport "localhost:5037")
             (None, Some "connection refused")],
          Some "connection refused").
Proof. vm_compute. reflexivity. Qed.

(** * The rest of device.go *)

(** ** Attributes and lists *)

(** X1: A device is a USB device exactly when its attributes hold a non-empty
    value under "usb"; a device without that attribute is not. *)
Theorem IsUsb_iff d :
  IsUsb d = true <-> exists v, attrs d !! "usb" = Some v /\ v <> "".
Proof.
  unfold IsUsb, Usb, map_index. rewrite negb_true_iff, String.eqb_neq.
  destruct (attrs d !! "usb") as [v |]; cbn; split.
  - intros H. eauto.
  - intros (v' & [= <-] & H). exact H.
  - congruence.
  - intros (v' & E & _). discriminate E.
Qed.

(** The getters read the attribute they are named after, and give the
    empty string when the device has no such attribute. *)
Lemma getters_of_missing_attributes d :
  attrs d = ∅ ->
  Product d = "" /\ Model d = "" /\ Usb d = "" /\ transportId d = "" /\
  IsUsb d = false.
Proof.
  unfold IsUsb, Product, Model, Usb, transportId, map_index.
  intros ->. rewrite !lookup_empty. auto.
Qed.

(** X2: [contains] answers membership. *)
Theorem contains_iff_In l v : contains l v = true <-> In v l.
Proof.
  induction l as [| r l IH]; cbn.
  - split; [discriminate | contradiction].
  - destruct (String.eqb_spec r v) as [-> | Hne].
    + split; auto.
    + rewrite IH. split; [auto |]. intros [E | H]; [congruence | exact H].
Qed.

Lemma HasPrefix_iff s prefix :
  HasPrefix s prefix = true <-> exists rest, s = prefix +:+ rest.
Proof.
  revert s. induction prefix as [| p prefix IH]; intros s.
  - destruct s; cbn; split; eauto.
  - destruct s as [| c s]; cbn.
    + split; [discriminate | intros (rest & [=])].
    + rewrite andb_true_iff, IH. split.
      * intros [E (rest & ->)]. apply Ascii.eqb_eq in E as ->. eauto.
      * intros (rest & [= -> ->]). split; [apply Ascii.eqb_refl | eauto].
Qed.

(** [Contains] finds the string somewhere inside. *)
Lemma Contains_iff s substr :
  Contains s substr = true <->
  exists before after, s = before +:+ substr +:+ after.
Proof.
  induction s as [| c s IH]; cbn [Contains]; rewrite orb_true_iff,
    HasPrefix_iff.
  - split.
    + intros [(rest & E) | E]; [| discriminate]. now exists "", rest.
    + intros (before & after & E). left.
      destruct before; [now exists after | discriminate E].
  - rewrite IH. split.
    + intros [(rest & E) | (before & after & ->)].
      * now exists "", rest.
      * now exists (String c before), after.
    + intros (before & after & E). destruct before as [| b before].
      * left. now exists after.
      * right. injection E as -> ->. eauto.
Qed.

(** ** Shell commands that are not blank *)

Lemma DecodeRuneInString_ascii c t :
  c < RuneSelf -> DecodeRuneInString (c :: t) = (c, 1%nat).
Proof.
  unfold RuneSelf. intros Hc. unfold DecodeRuneInString, first.
  apply Z.ltb_lt in Hc. rewrite Hc. reflexivity.
Qed.

(** Where the last rune of [c :: t] is a space, it ends after [c], when
    [c] is an ASCII character that is not a space. *)
Lemma DecodeLastRuneInString_after_head c t r size :
  c < RuneSelf -> IsSpace c = false ->
  DecodeLastRuneInString (c :: t) = (r, size) -> IsSpace r = true ->
  (size < length (c :: t))%nat.
Proof.
  intros Hc Hs H Hr. unfold DecodeLastRuneInString in H.
  set (s := c :: t) in *.
  assert (Hlen : Z.of_nat (length s) = Z.of_nat (length t) + 1)
    by (subst s; cbn [length]; lia).
  destruct (Z.eqb_spec (Z.of_nat (length s)) 0) as [E | _]; [lia |].
  destruct (Z.ltb_spec (nth (Z.to_nat (Z.of_nat (length s) - 1)) s 0) RuneSelf)
    as [Hlast | Hlast].
  - injection H as <- <-. destruct t as [| b t].
    + subst s. change (IsSpace c = true) in Hr. congruence.
    + subst s. cbn [length]. lia.
  - set (start := Z.max 0 _) in H.
    destruct (DecodeRuneInString (skipn (Z.to_nat start) s))
      as [r' size'] eqn:Ed.
    destruct (Z.eqb_spec (start + Z.of_nat size') (Z.of_nat (length s)))
      as [E | _]; cbn [negb] in H.
    + injection H as <- <-.
      destruct (Z.eq_dec start 0) as [E0 | E0].
      * replace (skipn (Z.to_nat start) s) with (c :: t) in Ed
          by (rewrite E0; reflexivity).
        rewrite DecodeRuneInString_ascii in Ed by assumption.
        injection Ed as <- <-. congruence.
      * assert (0 <= start) by (subst start; lia). lia.
    + injection H as <- <-. discriminate Hr.
Qed.

Lemma trimRightSpace_keeps_head c n t :
  c < RuneSelf -> IsSpace c = false ->
  exists t', trimRightSpace n (c :: t) = c :: t'.
Proof.
  intros Hc Hs. revert t. induction n as [| n IH]; intros t; cbn [trimRightSpace].
  - eauto.
  - destruct (DecodeLastRuneInString (c :: t)) as [r size] eqn:Ed.
    destruct (IsSpace r) eqn:Hr; [| eauto].
    pose proof (DecodeLastRuneInString_after_head c t r size Hc Hs Ed Hr)
      as Hlt.
    destruct (length (c :: t) - size)%nat as [| m] eqn:Em; [lia |].
    cbn [firstn]. apply IH.
Qed.

(** A string that starts with a plain character is not trimmed away. *)
Lemma TrimSpace_starts_plain s : starts_plain s = true -> TrimSpace s <> "".
Proof.
  destruct s as [| a s]; [discriminate |]. cbn [starts_plain].
  rewrite andb_true_iff, negb_true_iff, Z.ltb_lt. intros [Hc Hs].
  unfold TrimSpace, bytes_of_string. cbn [list_ascii_of_string map length].
  cbn [trimLeftSpace]. rewrite DecodeRuneInString_ascii, Hs by assumption.
  destruct (trimRightSpace_keeps_head (byte_of a)
              (length (byte_of a :: map byte_of (list_ascii_of_string s)))
              (map byte_of (list_ascii_of_string s)) Hc Hs) as [t' ->].
  discriminate.
Qed.

Lemma shell_command_starts_plain cmd args :
  starts_plain cmd = true -> starts_plain (shell_command cmd args) = true.
Proof.
  destruct cmd as [| a cmd]; [discriminate |]. now destruct args.
Qed.

(** A command that is not blank goes to [executeCommand]. *)
Lemma RunShellCommandWithBytes_not_blank d cmd args tr r :
  TrimSpace (shell_command cmd args) <> "" ->
  run (RunShellCommandWithBytes d cmd args) tr r <->
  run (executeCommand d ("shell:" +:+ shell_command cmd args) []) tr r.
Proof.
  intros H. unfold RunShellCommandWithBytes. rewrite shell_command_eq.
  apply String.eqb_neq in H. rewrite H. reflexivity.
Qed.

(** X3: A command that starts with an ASCII character other than a space is
    never refused: it is sent as [shell:<cmd> <args joined by spaces>],
    with nothing trimmed, and the run is the one of [executeCommand]. *)
Theorem plain_shell_command_is_sent d cmd args tr r :
  starts_plain cmd = true ->
  run (RunShellCommandWithBytes d cmd args) tr r <->
  run (executeCommand d ("shell:" +:+ shell_command cmd args) []) tr r.
Proof.
  intros H. apply RunShellCommandWithBytes_not_blank.
  apply TrimSpace_starts_plain. now apply shell_command_starts_plain.
Qed.

Lemma plain_shell_command_is_sent_witness :
  starts_plain "ls " = true /\
  run (RunShellCommandWithBytes dev0 "ls " [" -l "; ""])
    (selected dev0 tp0 ++
     [Step (Transport_Send tp0 "shell:ls   -l  ") None;
      Step (Transport_VerifyResponse tp0) None;
      Step (Transport_ReadBytesAll tp0) (Some "total 0", None);
      Step (Transport_Close tp0) None])
    (Some "total 0", None).
Proof.
  split; [reflexivity |].
  apply (proj2 (plain_shell_command_is_sent dev0 "ls " [" -l "; ""] _ _
                  eq_refl)).
  cbn. run_along.
Defined.

Lemma RunShellCommand_plain d cmd args tr r :
  starts_plain cmd = true ->
  run (RunShellCommand d cmd args) tr r <->
  exists raw,
    run (executeCommand d ("shell:" +:+ shell_command cmd args) []) tr
      (raw, snd r) /\
    fst r = string_of_bytes raw.
Proof.
  intros H. unfold RunShellCommand. rewrite run_bind_iff. split.
  - intros (tr1 & [raw err] & tr2 & -> & H1 & H2).
    run_next H2. rewrite app_nil_r. exists raw. split; [| reflexivity].
    now apply RunShellCommandWithBytes_not_blank in H1;
      [| apply TrimSpace_starts_plain, shell_command_starts_plain].
  - intros (raw & H1 & E). destruct r as [out err]. cbn in *. subst out.
    exists tr, (raw, err), []. rewrite app_nil_r. repeat split.
    + apply RunShellCommandWithBytes_not_blank; [| exact H1].
      now apply TrimSpace_starts_plain, shell_command_starts_plain.
    + cbn. now apply run_Ret_iff.
Qed.

(** ** Applications *)

(** X4: [AppUninstall] runs [pm uninstall <package>] in the shell of the
    device, with [-k] before the package exactly when the optional flag was
    passed as true.  It returns nil exactly when the command ran without
    error and its output contains "Success"; a failed command gives its
    error behind "apk uninstall: ", any other output is returned as an
    error behind "apk uninstalled: ". *)
Theorem AppUninstall_iff d appPackageName keepDataAndCache tr r :
  run (AppUninstall d appPackageName keepDataAndCache) tr r <->
  exists raw err,
    run (executeCommand d
           ("shell:pm uninstall " +:+
              (if passed_true keepDataAndCache then "-k " else "") +:+
              appPackageName) []) tr (raw, err) /\
    r = match err with
        | Some msg => Some ("apk uninstall: " +:+ msg)
        | None =>
          if Contains (string_of_bytes raw) "Success" then None
          else Some ("apk uninstalled: " +:+ string_of_bytes raw)
        end.
Proof.
  unfold AppUninstall. rewrite run_bind_iff.
  assert (E : forall tr r,
             run (if negb (length keepDataAndCache =? 0)%nat
                     && index0 keepDataAndCache false
                  then RunShellCommand d "pm uninstall" ["-k"; appPackageName]
                  else RunShellCommand d "pm uninstall" [appPackageName])
               tr r <->
             exists raw,
               run (executeCommand d
                      ("shell:pm uninstall " +:+
                         (if passed_true keepDataAndCache then "-k " else "")
                         +:+ appPackageName) []) tr (raw, snd r) /\
               fst r = string_of_bytes raw).
  { intros tr' r'. destruct keepDataAndCache as [| [|] rest];
      apply RunShellCommand_plain; reflexivity. }
  split.
  - intros (tr1 & [out err] & tr2 & -> & H1 & H2).
    apply E in H1 as (raw & H1 & Eout). cbn in H1, Eout, H2. subst out.
    exists raw, err.
    destruct err as [msg |].
    + run_next H2. rewrite app_nil_r. auto.
    + destruct (Contains (string_of_bytes raw) "Success");
        run_next H2; rewrite app_nil_r; auto.
  - intros (raw & err & H1 & ->).
    exists tr, (string_of_bytes raw, err), []. rewrite app_nil_r.
    repeat split.
    + apply E. eauto.
    + cbn. destruct err as [msg |]; [now apply run_Ret_iff |].
      destruct (Contains (string_of_bytes raw) "Success");
        now apply run_Ret_iff.
Qed.

Example AppUninstall_failure :
  run (AppUninstall dev0 "com.example" [true])
    (selected dev0 tp0 ++
     [Step (Transport_Send tp0 "shell:pm uninstall -k com.example") None;
      Step (Transport_VerifyResponse tp0) None;
      Step (Transport_ReadBytesAll tp0)
        (Some "Failure [DELETE_FAILED_INTERNAL_ERROR]", None);
      Step (Transport_Close tp0) None])
    (Some "apk uninstalled: Failure [DELETE_FAILED_INTERNAL_ERROR]").
Proof. cbn. run_along. Qed.

(** X5: [AppLaunch] runs [monkey -p <package> -c
    android.intent.category.LAUNCHER 1] in the shell of the device.  The
    error of a failed command is returned as it is; an output that
    contains "monkey aborted" is returned, trimmed, as an error behind
    "app launch: "; any other output is a success. *)
Theorem AppLaunch_iff d appPackageName tr r :
  run (AppLaunch d appPackageName) tr r <->
  exists raw err,
    run (executeCommand d
           ("shell:monkey -p " +:+ appPackageName +:+
              " -c android.intent.category.LAUNCHER 1") []) tr (raw, err) /\
    r = match err with
        | Some _ => err
        | None =>
          if Contains (string_of_bytes raw) "monkey aborted"
          then Some ("app launch: " +:+ TrimSpace (string_of_bytes raw))
          else None
        end.
Proof.
  unfold AppLaunch. rewrite run_bind_iff. split.
  - intros (tr1 & [out err] & tr2 & -> & H1 & H2).
    apply RunShellCommand_plain in H1 as (raw & H1 & Eout); [| reflexivity].
    cbn in H1, Eout, H2. subst out. exists raw, err.
    destruct err as [msg |].
    + run_next H2. rewrite app_nil_r. auto.
    + destruct (Contains (string_of_bytes raw) "monkey aborted");
        run_next H2; rewrite app_nil_r; auto.
  - intros (raw & err & H1 & ->).
    exists tr, (string_of_bytes raw, err), []. rewrite app_nil_r.
    repeat split.
    + apply RunShellCommand_plain; [reflexivity | eauto].
    + cbn. destruct err as [msg |]; [now apply run_Ret_iff |].
      destruct (Contains (string_of_bytes raw) "monkey aborted");
        now apply run_Ret_iff.
Qed.

(** X6: [AppTerminate] runs [am force-stop <package>] in the shell of the
    device and returns the error of the command; the output of the
    command is not looked at. *)
Theorem AppTerminate_iff d appPackageName tr r :
  run (AppTerminate d appPackageName) tr r <->
  exists raw,
    run (executeCommand d ("shell:am force-stop " +:+ appPackageName) [])
      tr (raw, r).
Proof.
  unfold AppTerminate. rewrite run_bind_iff. split.
  - intros (tr1 & [out err] & tr2 & -> & H1 & H2).
    apply RunShellCommand_plain in H1 as (raw & H1 & Eout); [| reflexivity].
    run_next H2. rewrite app_nil_r. eauto.
  - intros (raw & H1).
    exists tr, (string_of_bytes raw, r), []. rewrite app_nil_r.
    repeat split.
    + apply RunShellCommand_plain; [reflexivity | eauto].
    + cbn. now apply run_Ret_iff.
Qed.

(** ** Host-side and single commands *)

(** X7: [DevicePath] makes one call to the client, with
    [host-serial:<serial>:get-devpath], and returns the reply and the
    error as they come. *)
Theorem DevicePath_iff d tr r :
  run (DevicePath d) tr r <->
  exists reply, tr = [host_step d "get-devpath" [] reply] /\ r = reply.
Proof.
  unfold DevicePath, host_step. split.
  - intros H. run_next H. run_next H. destruct a. eauto.
  - intros ([reply err] & -> & ->). run_along.
Qed.

Lemma count_app p tr1 tr2 : count p (tr1 ++ tr2) = (count p tr1 + count p tr2)%nat.
Proof. unfold count. now rewrite List.filter_app, length_app. Qed.

Lemma count_none p tr :
  Forall (fun s => p s = false) tr -> count p tr = 0%nat.
Proof.
  unfold count. induction 1 as [| s tr Hs _ IH]; [reflexivity |].
  cbn. now rewrite Hs.
Qed.

Lemma handshake_reads_nothing d tr0 r0 :
  handshake d tr0 r0 -> Forall (fun s => reads_bytes s = false) tr0.
Proof. destruct 1; repeat constructor. Qed.

(** X8: [executeCommand] reads the reply of the server at most once, and not
    at all when it is told to only verify the response: then the bytes
    it returns are nil. *)
Theorem executeCommand_reads d command onlyVerifyResponse tr r :
  run (executeCommand d command onlyVerifyResponse) tr r ->
  (count reads_bytes tr <= 1)%nat /\
  (index0 onlyVerifyResponse false = true ->
   count reads_bytes tr = 0%nat /\ fst r = None).
Proof.
  intros H. apply executeCommand_iff, device_session_iff in H
    as (tr0 & [tp [e |]] & rest & H0 & -> & Hx); cbn in Hx;
    rewrite count_app, (count_none _ tr0)
      by (eapply handshake_reads_nothing; eassumption).
  - destruct Hx as [-> ->]. cbn. auto.
  - destruct Hx as [body r c Hx].
    destruct Hx as [e | e | E | raw err E]; cbn; (split; [lia |]);
      intros E'; try (split; reflexivity); congruence.
Qed.

Lemma executeCommand_reads_witness :
  run (executeCommand dev0 "tcpip:5555" [true])
    (selected dev0 tp0 ++
     [Step (Transport_Send tp0 "tcpip:5555") None;
      Step (Transport_VerifyResponse tp0) None;
      Step (Transport_Close tp0) None])
    (None, None) /\
  count reads_bytes
    (selected dev0 tp0 ++
     [Step (Transport_Send tp0 "tcpip:5555") None;
      Step (Transport_VerifyResponse tp0) None;
      Step (Transport_Close tp0) None]) = 0%nat.
Proof.
  assert (H : run (executeCommand dev0 "tcpip:5555" [true])
                (selected dev0 tp0 ++
                 [Step (Transport_Send tp0 "tcpip:5555") None;
                  Step (Transport_VerifyResponse tp0) None;
                  Step (Transport_Close tp0) None])
                (None, None)) by (cbn; run_along).
  split; [exact H |].
  exact (proj1 (proj2 (executeCommand_reads dev0 "tcpip:5555" [true] _ _ H)
                  eq_refl)).
Defined.

Lemma executeCommand_selected_iff d command onlyVerifyResponse tp body c r :
  run (executeCommand d command onlyVerifyResponse)
    (selected d tp ++ body ++ [Step (Transport_Close tp) c]) r <->
  executeCommand_exchange command (index0 onlyVerifyResponse false) tp body r.
Proof.
  rewrite executeCommand_iff, device_session_selected. apply closing_iff.
Qed.

(** X9: [EnableAdbOverTCP] sends [tcpip:<port>] to the selected device, with
    the port given or else the default port, verifies the response and
    closes the transport; it returns the error of the send, or else what
    the verification returned, and never reads a reply. *)
Theorem EnableAdbOverTCP_iff AdbDaemonPort d port tp rest r :
  let command := "tcpip:" +:+ fmt_d (index0 port AdbDaemonPort) in
  run (EnableAdbOverTCP AdbDaemonPort d port) (selected d tp ++ rest) r <->
  (exists e c,
     rest = [Step (Transport_Send tp command) (Some e);
             Step (Transport_Close tp) c] /\ r = Some e) \/
  (exists c,
     rest = [Step (Transport_Send tp command) None;
             Step (Transport_VerifyResponse tp) r;
             Step (Transport_Close tp) c]).
Proof.
  intros command. unfold EnableAdbOverTCP.
  assert (E : index0 (if (length port =? 0)%nat then [AdbDaemonPort] else port)
                0 = index0 port AdbDaemonPort) by (destruct port; reflexivity).
  rewrite E. clear E. fold command. rewrite run_bind_iff. split.
  - intros (tr1 & [raw err] & tr2 & E & H1 & H2). run_next H2.
    rewrite app_nil_r in E. subst tr1.
    apply executeCommand_iff, device_session_selected in H1.
    destruct H1 as [body r' c Hx].
    destruct Hx as [e | e | _ | raw' err' E']; cbn; eauto; discriminate E'.
  - intros H. exists (selected d tp ++ rest), (None, r), [].
    rewrite app_nil_r. repeat split; [| cbn; now apply run_Ret_iff].
    destruct H as [(e & c & -> & ->) | (c & ->)].
    + apply (executeCommand_selected_iff d command [true] tp [_] c).
      constructor.
    + apply (executeCommand_selected_iff d command [true] tp [_; _] c).
      destruct r; now constructor.
Qed.

Lemma Pull_sync_steps_iff d remotePath dest tp sync body c1 c2 r :
  run (Pull d remotePath dest) (sync_steps d tp sync body c1 c2) r <->
  Pull_exchange remotePath dest sync body r.
Proof.
  rewrite Pull_iff. apply sync_steps_iff.
Qed.

(** X10: On its sync transport, [Pull] sends RECV with the remote path and then
    writes the stream to the destination; it returns the error of the
    send, and otherwise whatever writing the stream returned. *)
Theorem Pull_steps_in_order d remotePath dest tp sync body c1 c2 r :
  run (Pull d remotePath dest) (sync_steps d tp sync body c1 c2) r <->
  (exists e,
     body = [Step (sync_Send sync "RECV" remotePath) (Some e)] /\
     r = Some e) \/
  body = [Step (sync_Send sync "RECV" remotePath) None;
          Step (sync_WriteStream sync dest) r].
Proof.
  rewrite Pull_sync_steps_iff. split.
  - intros [e | err]; eauto.
  - intros [(e & -> & ->) | ->]; constructor.
Qed.

(** ** Listings *)

Lemma List_reads_shape sync l tr r :
  List_reads sync (Some l) tr r ->
  exists es last,
    tr = map (read_entry sync) es ++ [Step (sync_ReadDirectoryEntry sync) last]
    /\ Forall (fun e => e <> zeroDeviceFileInfo) es
    /\ r = (Some (l ++ es), snd last)
    /\ (snd last = None -> fst last = zeroDeviceFileInfo).
Proof.
  intros H. remember (Some l) as acc eqn:E. revert l E.
  induction H as [acc entry e | acc entry Ez | acc entry tr r Ez H IH];
    intros l ->.
  - exists [], (entry, Some e). rewrite app_nil_r. cbn.
    repeat split; [constructor | intros [=]].
  - exists [], (entry, None). rewrite app_nil_r. cbn. auto.
  - destruct (IH (l ++ [entry]) eq_refl) as (es & last & -> & Hes & -> & Hl).
    exists (entry :: es), last. rewrite <- app_assoc. cbn. auto.
Qed.

(** Every run of [List] either fails before the first read, with a nil
    list, or reads real entries [es] and then a last answer that is the zero
    entry or an error, and returns [es]. *)
Lemma List_run_shape d remotePath tr r :
  run (List d remotePath) tr r ->
  (exists e, r = (None, Some e) /\ count reads_entry tr = 0%nat) \/
  (exists tp sync es last c1 c2,
     tr = sync_steps d tp sync
            (listing remotePath sync
               (map (read_entry sync) es
                  ++ [Step (sync_ReadDirectoryEntry sync) last])) c1 c2
     /\ Forall (fun e => e <> zeroDeviceFileInfo) es
     /\ r = (Some es, snd last)
     /\ (snd last = None -> fst last = zeroDeviceFileInfo)).
Proof.
  intros H. apply List_iff, device_session_iff in H
    as (tr0 & [tp [e |]] & rest & H0 & -> & Hx); cbn in Hx.
  - destruct Hx as [-> ->]. left. exists e. split; [reflexivity |].
    rewrite app_nil_r. destruct H0; reflexivity.
  - apply handshake_selected in H0 as ->.
    destruct Hx as [body r c Hx].
    destruct Hx as [sync e | sync body r c1 Hx]; [left; eauto |].
    destruct Hx as [e | tr r Hx]; [left; eauto |].
    apply List_reads_shape in Hx as (es & last & -> & Hes & -> & Hl).
    right. exists tp, sync, es, last, c1, c. unfold sync_steps, listing.
    cbn. rewrite <- !app_assoc. auto.
Qed.

Lemma count_read_entries sync es :
  count reads_entry (map (read_entry sync) es) = length es.
Proof.
  unfold count. induction es as [| e es IH]; cbn; [reflexivity |].
  now rewrite IH.
Qed.

(** X11: The list that [List] returns never holds the zero entry, whether the
    listing succeeded or failed; and [List] has called
    [ReadDirectoryEntry] once more than it returns entries. *)
Theorem List_entries_are_real d remotePath tr es err :
  run (List d remotePath) tr (Some es, err) ->
  Forall (fun e => e <> zeroDeviceFileInfo) es /\
  count reads_entry tr = S (length es).
Proof.
  intros H. apply List_run_shape in H
    as [(e & [=] & _) | (tp & sync & es' & last & c1 & c2 & -> & Hes & E & _)].
  injection E as -> ->. split; [exact Hes |].
  unfold sync_steps, listing, selected. cbn [app].
  change (?a :: ?b :: ?c :: ?d :: ?e :: ?l)
    with ([a; b; c; d; e] ++ l).
  rewrite !count_app, count_read_entries. cbn. lia.
Qed.

Lemma List_entries_are_real_witness :
  run (List dev0 "/sdcard")
    (sync_steps dev0 tp0 sync0
       (listing "/sdcard" sync0
          [read_entry sync0 entry_a; read_entry sync0 entry_b;
           Step (sync_ReadDirectoryEntry sync0)
             (zeroDeviceFileInfo, Some "EOF")])
       None None)
    (Some [entry_a; entry_b], Some "EOF") /\
  Forall (fun e => e <> zeroDeviceFileInfo) [entry_a; entry_b].
Proof.
  assert (H : run (List dev0 "/sdcard")
                (sync_steps dev0 tp0 sync0
                   (listing "/sdcard" sync0
                      [read_entry sync0 entry_a; read_entry sync0 entry_b;
                       Step (sync_ReadDirectoryEntry sync0)
                         (zeroDeviceFileInfo, Some "EOF")])
                   None None)
                (Some [entry_a; entry_b], Some "EOF"))
    by (cbn; run_along).
  split; [exact H |].
  exact (proj1 (List_entries_are_real dev0 "/sdcard" _ _ _ H)).
Defined.

(** X12: [List] returns a nil list only together with an error, and then it has
    read no entry at all; a listing without error returns a list that is
    not nil, also for an empty directory. *)
Theorem List_nil_means_failed_early d remotePath tr r :
  run (List d remotePath) tr r ->
  (fst r = None ->
   (exists e, snd r = Some e) /\ count reads_entry tr = 0%nat) /\
  (snd r = None -> exists es, fst r = Some es).
Proof.
  intros H. apply List_run_shape in H
    as [(e & -> & Hc) | (tp & sync & es & last & c1 & c2 & -> & _ & -> & _)];
    cbn; split; try discriminate; eauto.
Qed.

Lemma List_nil_means_failed_early_witness :
  run (List dev0 "/sdcard")
    (sync_steps dev0 tp0 sync0
       (listing "/sdcard" sync0 [read_entry sync0 zeroDeviceFileInfo])
       None None)
    (Some [], None) /\
  exists es, fst (Some ([] : list DeviceFileInfo), (None : error)) = Some es.
Proof.
  assert (H : run (List dev0 "/sdcard")
                (sync_steps dev0 tp0 sync0
                   (listing "/sdcard" sync0
                      [read_entry sync0 zeroDeviceFileInfo])
                   None None)
                (Some [], None))
    by (cbn; run_along).
  split; [exact H |].
  exact (proj2 (List_nil_means_failed_early dev0 "/sdcard" _ _ H) eq_refl).
Defined.

(** ** One transport per operation *)

Lemma List_reads_only_reads sync acc tr r :
  List_reads sync acc tr r ->
  Forall (fun s => exists a, s = Step (sync_ReadDirectoryEntry sync) a) tr.
Proof. induction 1; repeat constructor; eauto. Qed.

(** What holds of every step of the exchange of a sync operation, given
    that it holds of the calls on the sync transport. *)
Lemma sync_exchange_steps {R : Type} (op : operation R) tp rest r
    (P : step -> Prop) :
  uses_sync op = true ->
  (forall X (e : adbE X) x,
     on_transport tp (Step e x) -> opens_transport (Step e x) = false ->
     closes_transport (Step e x) = false -> P (Step e x)) ->
  exchange_of op tp rest r ->
  exists body c, rest = body ++ [Step (Transport_Close tp) c] /\ Forall P body.
Proof.
  intros Hop HP H.
  destruct op; try discriminate Hop; cbn [exchange_of] in H;
    destruct H as [body r c Hx]; exists body, c; (split; [reflexivity |]);
    (destruct Hx as [sync e | sync body r c1 Hx];
     [repeat constructor; now apply HP |]);
    apply Forall_cons; (split; [now apply HP |]);
    apply Forall_app; (split; [| repeat constructor; now apply HP]).
  - destruct Hx as [e | tr r Hx]; [repeat constructor; now apply HP |].
    apply Forall_cons. split; [now apply HP |].
    eapply Forall_impl; [apply (List_reads_only_reads _ _ _ _ Hx) |].
    intros s (a & ->). now apply HP.
  - destruct Hx; repeat constructor; now apply HP.
  - destruct Hx; repeat constructor; now apply HP.
Qed.

(** The same for every operation; [ShellStream] may end without a close. *)
Lemma exchange_steps {R : Type} (op : operation R) tp rest r
    (P : step -> Prop) :
  (forall X (e : adbE X) x,
     on_transport tp (Step e x) -> opens_transport (Step e x) = false ->
     closes_transport (Step e x) = false -> P (Step e x)) ->
  exchange_of op tp rest r ->
  (exists body c, rest = body ++ [Step (Transport_Close tp) c] /\
                  Forall P body) \/
  (owns_transport op = false /\ Forall P rest).
Proof.
  intros HP H. destruct (uses_sync op) eqn:Hop.
  - left. now apply (sync_exchange_steps op tp rest r P).
  - destruct op; try discriminate Hop; cbn [exchange_of] in H.
    + left. destruct H as [body r c Hx]. exists body, c.
      split; [reflexivity |].
      destruct Hx; repeat constructor; now apply HP.
    + destruct H as [e c | e c | t ->].
      * left. eexists [_], c. split; [reflexivity |].
        repeat constructor; now apply HP.
      * left. eexists [_; _], c. split; [reflexivity |].
        repeat constructor; now apply HP.
      * right. split; [reflexivity |]. repeat constructor; now apply HP.
Qed.

(** X13: Every operation on a device opens one transport, as its first step,
    and every call it makes on a transport afterwards is a call on the
    transport that this step returned. *)
Theorem operations_use_the_opened_transport d {R : Type} (op : operation R)
    tr r :
  run (perform d op) tr r ->
  exists a rest,
    tr = Step (NewTransport (address d)) a :: rest /\
    Forall (on_transport (fst a)) rest /\
    Forall (fun s => opens_transport s = false) rest.
Proof.
  intros H. apply perform_iff, device_session_iff in H
    as (tr0 & [tp [e |]] & rest & H0 & -> & Hx); cbn in Hx.
  - destruct Hx as [-> ->]. rewrite app_nil_r.
    inversion H0; subst; eexists (_, _), _; (split; [reflexivity |]);
      cbn; split; repeat constructor.
  - apply handshake_selected in H0 as ->.
    exists (tp, None), (tl (selected d tp) ++ rest).
    split; [reflexivity |]. cbn [selected tl fst app].
    apply (exchange_steps op tp rest r
             (fun s => on_transport tp s /\ opens_transport s = false)) in Hx;
      [| auto].
    rewrite <- Forall_and.
    repeat (apply Forall_cons; split; [split; reflexivity |]).
    destruct Hx as [(body & c & -> & Hb) | [_ Hb]]; [| exact Hb].
    apply Forall_app. split; [exact Hb |]. repeat constructor.
Qed.

Lemma operations_use_the_opened_transport_witness :
  run (perform dev0 (op_Pull "/sdcard/a.txt" 9%nat))
    (sync_steps dev0 tp0 sync0
       [Step (sync_Send sync0 "RECV" "/sdcard/a.txt") None;
        Step (sync_WriteStream sync0 9%nat) None] None None)
    None /\
  exists a rest,
    sync_steps dev0 tp0 sync0
      [Step (sync_Send sync0 "RECV" "/sdcard/a.txt") None;
       Step (sync_WriteStream sync0 9%nat) None] None None
    = Step (NewTransport (address dev0)) a :: rest /\
    Forall (on_transport (fst a)) rest /\
    Forall (fun s => opens_transport s = false) rest.
Proof.
  assert (H : run (perform dev0 (op_Pull "/sdcard/a.txt" 9%nat))
                (sync_steps dev0 tp0 sync0
                   [Step (sync_Send sync0 "RECV" "/sdcard/a.txt") None;
                    Step (sync_WriteStream sync0 9%nat) None] None None)
                None) by (cbn; run_along).
  split; [exact H |].
  exact (operations_use_the_opened_transport dev0 _ _ _ H).
Defined.

Lemma handshake_count_closes d tr0 r0 :
  handshake d tr0 r0 -> count closes_transport tr0 = 0%nat.
Proof. destruct 1; reflexivity. Qed.

(** X14: No operation closes a transport twice.  An operation that owns its
    transport closes it once when the device was selected, and not at all
    when the selection failed. *)
Theorem transport_closed_at_most_once d {R : Type} (op : operation R) tr r :
  run (perform d op) tr r ->
  (count closes_transport tr <= 1)%nat /\
  (owns_transport op = true ->
   (count closes_transport tr = 1%nat <->
    exists tp rest, tr = selected d tp ++ rest)).
Proof.
  intros H. apply perform_iff, device_session_iff in H
    as (tr0 & [tp [e |]] & rest & H0 & -> & Hx); cbn in Hx;
    rewrite count_app, (handshake_count_closes d tr0 _ H0).
  - destruct Hx as [-> ->]. cbn. split; [lia |]. intros _. split; [lia |].
    intros (tp' & rest' & E). rewrite app_nil_r in E. subst tr0.
    assert (Hs : handshake d (selected d tp') (tp', None)) by constructor.
    destruct (handshake_unique _ _ _ [] _ _ rest' H0 Hs) as (_ & E & _).
    { now rewrite app_nil_r. }
    discriminate E.
  - apply handshake_selected in H0 as ->.
    apply (exchange_steps op tp rest r
             (fun s => closes_transport s = false)) in Hx; [| auto].
    destruct Hx as [(body & c & -> & Hb) | [Ho Hb]].
    + rewrite count_app, (count_none _ body Hb). cbn. split; [lia |].
      intros _. split; [eauto | reflexivity].
    + rewrite (count_none _ rest Hb). split; [lia |]. congruence.
Qed.

Lemma transport_closed_at_most_once_witness :
  run (perform dev0 (op_ShellStream "logcat"))
    (selected dev0 tp0 ++
     [Step (Transport_Send tp0 "shell:logcat") (Some "broken pipe");
      Step (Transport_Close tp0) None])
    (None, None, Some "broken pipe") /\
  (count closes_transport
     (selected dev0 tp0 ++
      [Step (Transport_Send tp0 "shell:logcat") (Some "broken pipe");
       Step (Transport_Close tp0) None]) <= 1)%nat.
Proof.
  assert (H : run (perform dev0 (op_ShellStream "logcat"))
                (selected dev0 tp0 ++
                 [Step (Transport_Send tp0 "shell:logcat")
                    (Some "broken pipe");
                  Step (Transport_Close tp0) None])
                (None, None, Some "broken pipe")) by (cbn; run_along).
  split; [exact H |].
  exact (proj1 (transport_closed_at_most_once dev0 _ _ _ H)).
Defined.

(** ** The sync transport *)

Lemma sync_session_inv {A : Type} (fail : error -> A)
    (exchange : syncTransport -> list step -> A -> Prop) tp a rest r :
  sync_session fail exchange tp
    (Step (Transport_CreateSyncTransport tp) a :: rest) r ->
  match snd a with
  | Some e => rest = [] /\ r = fail (Some e)
  | None =>
    exists body c1,
      rest = body ++ [Step (sync_Close (fst a)) c1] /\
      exchange (fst a) body r
  end.
Proof.
  intros H.
  remember (Step (Transport_CreateSyncTransport tp) a :: rest) as tr eqn:E.
  destruct H as [sync e | sync body r c1 Hx].
  - same_steps E. cbn. auto.
  - apply cons_eq_inv in E as [E <-].
    apply (f_equal step_value) in E. cbn in E. simplify_eq. cbn. eauto.
Qed.

Lemma closing_inv {A : Type}
    (exchange : TransportPtr -> list step -> A -> Prop) tp X (e : adbE X) x
    rest r :
  closes_transport (Step e x) = false ->
  closing exchange tp (Step e x :: rest) r ->
  exists body c,
    rest = body ++ [Step (Transport_Close tp) c] /\
    exchange tp (Step e x :: body) r.
Proof.
  intros Hs H. remember (Step e x :: rest) as tr eqn:E.
  destruct H as [body r c Hx]. destruct body as [| s body].
  - apply cons_eq_inv in E as [E _]. apply (f_equal closes_transport) in E.
    rewrite Hs in E. discriminate E.
  - apply cons_eq_inv in E as [-> <-]. eauto.
Qed.

Lemma sync_exchange_on_sync {R : Type} (op : operation R) fail
    (exchange : syncTransport -> list step -> R -> Prop) sync body r :
  uses_sync op = true ->
  exchange_of op = closing (sync_session fail exchange) ->
  exchange sync body r ->
  Forall (on_sync sync) body /\ Forall (fun s => closes_sync s = false) body.
Proof.
  intros Hop E H. rewrite <- Forall_and.
  destruct op; try discriminate Hop; cbn [exchange_of] in E;
    assert (Hx : closing (sync_session fail exchange) None
                   ([Step (Transport_CreateSyncTransport None) (sync, None)]
                      ++ body ++ [Step (sync_Close sync) None]
                      ++ [Step (Transport_Close None) None]) r)
      by (rewrite !app_assoc; constructor; rewrite <- app_assoc;
          now constructor);
    rewrite <- E in Hx; apply closing_inv in Hx as (body' & c & E' & Hx);
    try reflexivity;
    rewrite app_assoc in E'; apply app_inj_tail in E' as [<- _];
    apply sync_session_held_iff in Hx.
  - destruct Hx as [e | tr r Hx]; [repeat constructor |].
    apply Forall_cons. split; [split; reflexivity |].
    eapply Forall_impl; [apply (List_reads_only_reads _ _ _ _ Hx) |].
    intros s (a & ->). split; reflexivity.
  - destruct Hx; repeat constructor.
  - destruct Hx; repeat constructor.
Qed.

(** X15: [List], [Push] and [Pull] close the sync transport they created, and
    close it right before the transport: with the sync transport created,
    the run ends with the close of the sync transport and then the close of
    the transport, every call on a sync transport in between is on that
    sync transport and none of them closes it; when the sync transport
    cannot be created, only the transport is closed and the operation
    fails with that error. *)
Theorem sync_closed_before_transport d {R : Type} (op : operation R) tp a
    rest r :
  uses_sync op = true ->
  run (perform d op)
    (selected d tp ++ Step (Transport_CreateSyncTransport tp) a :: rest) r ->
  match snd a with
  | Some e =>
      (exists c, rest = [Step (Transport_Close tp) c]) /\
      r = failure op (Some e)
  | None =>
      exists body c1 c2,
        rest = body ++ [Step (sync_Close (fst a)) c1;
                        Step (Transport_Close tp) c2] /\
        Forall (on_sync (fst a)) body /\
        Forall (fun s => closes_sync s = false) body
  end.
Proof.
  intros Hop H. apply perform_iff, device_session_selected in H.
  assert (exists fail exchange,
             exchange_of op = closing (sync_session fail exchange) /\
             failure op = fail) as (fail & exchange & E & Ef)
    by (destruct op; try discriminate Hop; cbn; eauto).
  rewrite E in H. apply closing_inv in H as (body' & c & -> & H);
    [| reflexivity].
  apply sync_session_inv in H. destruct (snd a) as [e |].
  - destruct H as [-> ->]. rewrite Ef. eauto.
  - destruct H as (body & c1 & -> & H).
    exists body, c1, c. rewrite <- app_assoc. split; [reflexivity |].
    now apply (sync_exchange_on_sync op fail exchange (fst a) body r).
Qed.

Lemma sync_closed_before_transport_witness :
  uses_sync (op_Push 7%nat "/data/local/tmp/a.apk" time0 []) = true /\
  run (perform dev0 (op_Push 7%nat "/data/local/tmp/a.apk" time0 []))
    (selected dev0 tp0 ++
     Step (Transport_CreateSyncTransport tp0) (sync0, None) ::
     [Step (sync_Send sync0 "SEND" "/data/local/tmp/a.apk,436") None;
      Step (sync_SendStream sync0 7%nat) (Some "read: input/output error");
      Step (sync_Close sync0) None;
      Step (Transport_Close tp0) None])
    (Some "read: input/output error") /\
  exists body c1 c2,
    [Step (sync_Send sync0 "SEND" "/data/local/tmp/a.apk,436") None;
     Step (sync_SendStream sync0 7%nat) (Some "read: input/output error");
     Step (sync_Close sync0) None;
     Step (Transport_Close tp0) None]
    = body ++ [Step (sync_Close sync0) c1; Step (Transport_Close tp0) c2] /\
    Forall (on_sync sync0) body /\
    Forall (fun s => closes_sync s = false) body.
Proof.
  assert (H : run (perform dev0
                     (op_Push 7%nat "/data/local/tmp/a.apk" time0 []))
                (selected dev0 tp0 ++
                 Step (Transport_CreateSyncTransport tp0) (sync0, None) ::
                 [Step (sync_Send sync0 "SEND" "/data/local/tmp/a.apk,436")
                    None;
                  Step (sync_SendStream sync0 7%nat)
                    (Some "read: input/output error");
                  Step (sync_Close sync0) None;
                  Step (Transport_Close tp0) None])
                (Some "read: input/output error")) by (cbn; run_along).
  split; [reflexivity | split; [exact H |]].
  exact (sync_closed_before_transport dev0
           (op_Push 7%nat "/data/local/tmp/a.apk" time0 []) tp0
           (sync0, None) _ _ eq_refl H).
Defined.

(** ** Runs over all calls *)

Lemma drun_inv {R : Type} (t : itree devE R) tr r :
  drun t tr r -> drun_head (observe t) tr r.
Proof.
  destruct 1 as [t r E | t u tr r E H | t X e k x tr r E H];
    rewrite E; cbn; eauto.
Qed.

Lemma drun_observe {R : Type} (t u : itree devE R) tr r :
  observe t = observe u -> drun t tr r -> drun u tr r.
Proof.
  intros E H. revert u E.
  destruct H as [t r E' | t v tr r E' H | t X e k x tr r E' H]; intros u E.
  - apply drun_Ret. now rewrite <- E.
  - apply drun_Tau with v; [now rewrite <- E | exact H].
  - apply drun_Vis with k; [now rewrite <- E | exact H].
Qed.

Lemma drun_Ret_iff {R : Type} (a : R) tr r :
  drun (Ret a : itree devE R) tr r <-> tr = [] /\ r = a.
Proof.
  split.
  - intros H. apply drun_inv in H. exact H.
  - intros [-> ->]. now constructor.
Qed.

(** A call followed by a continuation. *)
Lemma drun_trigger_bind_iff {X B : Type} (e : devE X)
    (k : X -> itree devE B) tr r :
  drun (ITree.bind (ITree.trigger e) k) tr r <->
  exists x tr', tr = DStep e x :: tr' /\ drun (k x) tr' r.
Proof.
  split.
  - intros H. apply drun_inv in H. cbn in H.
    destruct H as (x & tr' & -> & H). exists x, tr'. split; [reflexivity |].
    eapply drun_observe; [| exact H]. reflexivity.
  - intros (x & tr' & -> & H).
    eapply drun_Vis with (k := fun y => ITree.bind (Ret y) k);
      [reflexivity |].
    eapply drun_observe; [| exact H]. reflexivity.
Qed.

Lemma observe_lift {R : Type} (t : itree adbE R) :
  observe (lift t) =
  match observe t with
  | RetF r => RetF r
  | TauF u => TauF (lift u)
  | VisF e k => VisF (inl1 e) (fun x => lift (k x))
  end.
Proof.
  change (observe (lift t)) with
    (observe (match observe t with
              | RetF r => Ret r
              | TauF u => Tau (lift u)
              | VisF e k => Vis (inl1 e : devE _) (fun x => lift (k x))
              end)).
  destruct (observe t); reflexivity.
Qed.

(** The runs of a lifted program are the runs of the program. *)
Lemma drun_lift_iff {R : Type} (t : itree adbE R) tr r :
  drun (lift t) tr r <-> exists tr0, run t tr0 r /\ tr = map lift_step tr0.
Proof.
  split.
  - intros H. remember (lift t) as u eqn:Eu. revert t Eu.
    induction H as [u r E | u v tr r E Hv IH | u X e k x tr r E Hk IH];
      intros t ->; rewrite observe_lift in E;
      destruct (observe t) as [a | w | Y e' k'] eqn:Et; try discriminate.
    + injection E as ->. exists []. split; [now constructor | reflexivity].
    + injection E as <-. destruct (IH w eq_refl) as (tr0 & H0 & ->).
      exists tr0. split; [| reflexivity]. eapply run_Tau; eauto.
    + revert x Hk IH.
      refine (match E in _ = o
                    return match o with
                           | VisF e0 k0 =>
                               forall x, drun (k0 x) tr r -> _ -> _
                           | _ => True
                           end
              with eq_refl => _ end).
      intros x _ IH. destruct (IH (k' x) eq_refl) as (tr0 & H0 & ->).
      exists (Step e' x :: tr0). split; [| reflexivity].
      eapply run_Vis; eauto.
  - intros (tr0 & H & ->).
    induction H as [t r E | t u tr r E Hu IH | t X e k x tr r E Hk IH].
    + apply drun_Ret. now rewrite observe_lift, E.
    + apply drun_Tau with (lift u); [| exact IH].
      now rewrite observe_lift, E.
    + cbn. apply drun_Vis with (k := fun y => lift (k y)); [| exact IH].
      now rewrite observe_lift, E.
Qed.

(** ** The forwards of a device *)

Lemma fold_left_append_filter {A : Type} (p : A -> bool) (l acc : list A) :
  fold_left (fun s x => if p x then append s x else s) l (Some acc)
  = Some (acc ++ List.filter p l).
Proof.
  revert acc. induction l as [| x l IH]; intros acc; cbn.
  - now rewrite app_nil_r.
  - destruct (p x); cbn; rewrite IH; [now rewrite <- app_assoc | reflexivity].
Qed.

(** X16: [ForwardList] asks the client once for all forwards.  When that fails
    it returns a nil list and the error; otherwise it returns, in the
    order of the client's list, exactly the forwards whose serial is the
    one of the device, as a list that is not nil even when none is. *)
Theorem ForwardList_iff d tr r :
  drun (ForwardList d) tr r <->
  exists forwardList err,
    tr = [DStep (inr1 (Client_ForwardList (adbClient d))) (forwardList, err)]
    /\ r = match err with
           | Some _ => (None, err)
           | None =>
             (Some (List.filter
                      (fun f => String.eqb (Serial f) (serial d))
                      (elements forwardList)), None)
           end.
Proof.
  unfold ForwardList. rewrite drun_trigger_bind_iff. split.
  - intros ([forwardList err] & tr' & -> & H). exists forwardList, err.
    cbn in H. destruct err as [e |]; apply drun_Ret_iff in H as [-> ->].
    + auto.
    + now rewrite fold_left_append_filter.
  - intros (forwardList & err & -> & ->).
    exists (forwardList, err), []. split; [reflexivity |]. cbn.
    destruct err as [e |]; apply drun_Ret_iff.
    + auto.
    + now rewrite fold_left_append_filter.
Qed.

Example ForwardList_of_nil :
  drun (ForwardList dev0)
    [DStep (inr1 (Client_ForwardList (adbClient dev0))) (None, None)]
    (Some [], None).
Proof.
  apply drun_trigger_bind_iff. eexists (_, _), []. split; [reflexivity |].
  now apply drun_Ret_iff.
Qed.

Example ForwardList_filters :
  drun (ForwardList dev0)
    [DStep (inr1 (Client_ForwardList (adbClient dev0)))
       (Some [mkDeviceForward "emulator-5554" "tcp:8080" "tcp:80";
              mkDeviceForward "R58M" "tcp:9000" "tcp:9000";
              mkDeviceForward "emulator-5554" "tcp:1" "tcp:2"], None)]
    (Some [mkDeviceForward "emulator-5554" "tcp:8080" "tcp:80";
           mkDeviceForward "emulator-5554" "tcp:1" "tcp:2"], None).
Proof.
  apply drun_trigger_bind_iff. eexists (_, _), []. split; [reflexivity |].
  now apply drun_Ret_iff.
Qed.

(** ** Pushing a local file *)

Lemma Push_sends_only d source remotePath modification mode tr r :
  run (Push d source remotePath modification mode) tr r ->
  Forall (sends_only (remotePath +:+ "," +:+
                        fmt_d (index0 mode DefaultFileMode))) tr.
Proof.
  intros H. apply Push_iff, device_session_iff in H
    as (tr0 & [tp [e |]] & rest & H0 & -> & Hx); cbn in Hx.
  - destruct Hx as [-> ->]. rewrite app_nil_r.
    inversion H0; subst; repeat constructor.
  - apply handshake_selected in H0 as ->.
    destruct Hx as [body r c Hx].
    destruct Hx as [sync e | sync body r c1 Hx]; [repeat constructor |].
    destruct Hx; repeat constructor.
Qed.

(** X17: [PushFile] without a modification time asks the file for its [Stat]
    first: when that fails nothing else is called and the error is
    returned, otherwise the file is pushed with the modification time of
    the [Stat].  With a modification time given, [Stat] is not called and
    the file is pushed with the first time given.  The mode of the push is
    the default mode in both cases. *)
Theorem PushFile_iff d local remotePath modification tr r :
  drun (PushFile d local remotePath modification) tr r <->
  match modification with
  | [] =>
    exists stat err,
      match err with
      | Some _ =>
          tr = [DStep (inr1 (File_Stat local)) (stat, err)] /\ r = err
      | None =>
          exists tr0,
            tr = DStep (inr1 (File_Stat local)) (stat, None)
                   :: map lift_step tr0 /\
            run (Push d local remotePath (ModTime stat) [DefaultFileMode])
              tr0 r
      end
  | m :: _ =>
    exists tr0,
      tr = map lift_step tr0 /\
      run (Push d local remotePath m [DefaultFileMode]) tr0 r
  end.
Proof.
  unfold PushFile. destruct modification as [| m rest]; cbn [length Nat.eqb].
  - rewrite drun_trigger_bind_iff. split.
    + intros ([stat err] & tr' & -> & H). exists stat, err. cbn in H.
      destruct err as [e |].
      * apply drun_Ret_iff in H as [-> ->]. auto.
      * apply drun_lift_iff in H as (tr0 & H & ->). eauto.
    + intros (stat & [e |] & H).
      * destruct H as [-> ->]. exists (stat, Some e), [].
        split; [reflexivity |]. cbn. now apply drun_Ret_iff.
      * destruct H as (tr0 & -> & H). exists (stat, None), (map lift_step tr0).
        split; [reflexivity |]. cbn. apply drun_lift_iff. eauto.
  - rewrite drun_lift_iff. cbn [index0]. split.
    + intros (tr0 & H & ->). eauto.
    + intros (tr0 & -> & H). eauto.
Qed.

Example PushFile_stat_fails :
  drun (PushFile dev0 7%nat "/data/local/tmp/a.apk" [])
    [DStep (inr1 (File_Stat 7%nat))
       (mkFileInfo zeroTime, Some "stat: file already closed")]
    (Some "stat: file already closed").
Proof.
  apply drun_trigger_bind_iff. eexists (_, _), []. split; [reflexivity |].
  now apply drun_Ret_iff.
Qed.

(** X18: Whatever mode the file has, [PushFile] pushes it with the mode 0664:
    the only sync command it sends is SEND with the payload
    [<remotePath>,436]. *)
Theorem PushFile_sends_default_mode d local remotePath modification tr r :
  drun (PushFile d local remotePath modification) tr r ->
  Forall (fun s => match transport_step s with
                   | Some s' => sends_only (remotePath +:+ ",436") s'
                   | None => True
                   end) tr.
Proof.
  intros H.
  assert (Hp : forall m tr0,
             run (Push d local remotePath m [DefaultFileMode]) tr0 r ->
             Forall (fun s => match transport_step s with
                              | Some s' =>
                                  sends_only (remotePath +:+ ",436") s'
                              | None => True
                              end) (map lift_step tr0)).
  { intros m tr0 H0. apply Push_sends_only in H0.
    apply Forall_map. eapply Forall_impl; [exact H0 |].
    intros [X e x] Hs. exact Hs. }
  unfold PushFile in H.
  destruct modification as [| m rest]; cbn [length Nat.eqb] in H.
  - apply drun_trigger_bind_iff in H as ([stat [e |]] & tr' & -> & H);
      cbn in H; apply Forall_cons; (split; [exact I |]).
    + apply drun_Ret_iff in H as [-> _]. constructor.
    + apply drun_lift_iff in H as (tr0 & H & ->). now apply Hp with (ModTime stat).
  - apply drun_lift_iff in H as (tr0 & H & ->).
    now apply Hp with (index0 (m :: rest) zeroTime).
Qed.

Lemma PushFile_sends_default_mode_witness :
  drun (PushFile dev0 7%nat "/data/local/tmp/a.apk" [])
    (DStep (inr1 (File_Stat 7%nat)) (mkFileInfo time0, None)
       :: map lift_step
            (sync_steps dev0 tp0 sync0
               [Step (sync_Send sync0 "SEND" "/data/local/tmp/a.apk,436")
                  None;
                Step (sync_SendStream sync0 7%nat) None;
                Step (sync_SendStatus sync0 "DONE" 1664403200) None;
                Step (sync_VerifyStatus sync0) None]
               None None))
    None /\
  Forall (fun s => match transport_step s with
                   | Some s' =>
                       sends_only ("/data/local/tmp/a.apk" +:+ ",436") s'
                   | None => True
                   end)
    (DStep (inr1 (File_Stat 7%nat)) (mkFileInfo time0, None)
       :: map lift_step
            (sync_steps dev0 tp0 sync0
               [Step (sync_Send sync0 "SEND" "/data/local/tmp/a.apk,436")
                  None;
                Step (sync_SendStream sync0 7%nat) None;
                Step (sync_SendStatus sync0 "DONE" 1664403200) None;
                Step (sync_VerifyStatus sync0) None]
               None None)).
Proof.
  assert (H : drun (PushFile dev0 7%nat "/data/local/tmp/a.apk" [])
                (DStep (inr1 (File_Stat 7%nat)) (mkFileInfo time0, None)
                   :: map lift_step
                        (sync_steps dev0 tp0 sync0
                           [Step (sync_Send sync0 "SEND"
                                    "/data/local/tmp/a.apk,436") None;
                            Step (sync_SendStream sync0 7%nat) None;
                            Step (sync_SendStatus sync0 "DONE" 1664403200)
                              None;
                            Step (sync_VerifyStatus sync0) None]
                           None None))
                None).
  { apply drun_trigger_bind_iff. eexists (_, _), _. split; [reflexivity |].
    apply drun_lift_iff. eexists. split; [| reflexivity]. cbn. run_along. }
  split; [exact H |].
  exact (PushFile_sends_default_mode dev0 _ _ _ _ _ H).
Defined.

(** ** Which commands are blank *)

Lemma land_shiftl_small a b k :
  0 <= k -> 0 <= b < 2 ^ k -> Z.land (Z.shiftl a k) b = 0.
Proof.
  intros Hk Hb. apply Z.bits_inj'. intros n Hn.
  rewrite Z.land_spec, Z.bits_0.
  destruct (Z.lt_ge_cases n k) as [Hlt | Hge].
  - now rewrite Z.shiftl_spec_low.
  - destruct (Z.eq_dec b 0) as [-> | Hb0].
    + rewrite Z.bits_0. apply andb_false_r.
    + rewrite (Z.bits_above_log2 b n); [apply andb_false_r | lia |].
      apply Z.log2_lt_pow2; [lia |].
      apply Z.lt_le_trans with (2 ^ k); [lia |].
      apply Z.pow_le_mono_r; lia.
Qed.

(** Bits that do not overlap add up. *)
Lemma lor_shiftl_small a b k :
  0 <= k -> 0 <= b < 2 ^ k -> Z.lor (Z.shiftl a k) b = a * 2 ^ k + b.
Proof.
  intros Hk Hb.
  pose proof (Z.add_lor_land (Z.shiftl a k) b) as H.
  rewrite land_shiftl_small in H by assumption.
  rewrite <- Z.shiftl_mul_pow2 by assumption. lia.
Qed.

Lemma land_63 b : 128 <= b <= 191 -> Z.land b 63 = b - 128.
Proof.
  intros H. change 63 with (Z.ones 6). rewrite Z.land_ones by lia.
  change (2 ^ 6) with 64. Z.div_mod_to_equations. lia.
Qed.

(** The rune of a sequence of two, three and four bytes. *)
Lemma rune_of_2 s0 s1 :
  192 <= s0 <= 223 -> 128 <= s1 <= 191 ->
  Z.lor (Z.shiftl (Z.land s0 31) 6) (Z.land s1 63)
  = (s0 - 192) * 64 + (s1 - 128).
Proof.
  intros H0 H1. rewrite (land_63 s1) by assumption.
  change 31 with (Z.ones 5). rewrite Z.land_ones by lia.
  rewrite lor_shiftl_small by (change (2 ^ 6) with 64; lia).
  change (2 ^ 5) with 32. change (2 ^ 6) with 64.
  Z.div_mod_to_equations. lia.
Qed.

Lemma rune_of_3 s0 s1 s2 :
  224 <= s0 <= 239 -> 128 <= s1 <= 191 -> 128 <= s2 <= 191 ->
  Z.lor (Z.lor (Z.shiftl (Z.land s0 15) 12) (Z.shiftl (Z.land s1 63) 6))
    (Z.land s2 63)
  = (s0 - 224) * 4096 + (s1 - 128) * 64 + (s2 - 128).
Proof.
  intros H0 H1 H2. rewrite (land_63 s1), (land_63 s2) by assumption.
  change 15 with (Z.ones 4). rewrite Z.land_ones by lia.
  change (2 ^ 4) with 16.
  assert (E0 : s0 mod 16 = s0 - 224) by (Z.div_mod_to_equations; lia).
  rewrite E0. rewrite (Z.shiftl_mul_pow2 (s1 - 128)) by lia.
  rewrite lor_shiftl_small
    by (change (2 ^ 6) with 64; change (2 ^ 12) with 4096; lia).
  change (2 ^ 6) with 64. change (2 ^ 12) with 4096.
  replace ((s0 - 224) * 4096 + (s1 - 128) * 64)
    with (Z.shiftl ((s0 - 224) * 64 + (s1 - 128)) 6)
    by (rewrite Z.shiftl_mul_pow2 by lia; change (2 ^ 6) with 64; lia).
  rewrite lor_shiftl_small by (change (2 ^ 6) with 64; lia).
  rewrite ?Z.shiftl_mul_pow2 by lia. change (2 ^ 6) with 64. lia.
Qed.

Lemma rune_of_4 s0 s1 s2 s3 :
  240 <= s0 <= 247 -> 128 <= s1 <= 191 -> 128 <= s2 <= 191 ->
  128 <= s3 <= 191 ->
  Z.lor (Z.lor (Z.lor (Z.shiftl (Z.land s0 7) 18)
                      (Z.shiftl (Z.land s1 63) 12))
               (Z.shiftl (Z.land s2 63) 6))
    (Z.land s3 63)
  = (s0 - 240) * 262144 + (s1 - 128) * 4096 + (s2 - 128) * 64 + (s3 - 128).
Proof.
  intros H0 H1 H2 H3.
  rewrite (land_63 s1), (land_63 s2), (land_63 s3) by assumption.
  change 7 with (Z.ones 3). rewrite Z.land_ones by lia.
  change (2 ^ 3) with 8.
  assert (E0 : s0 mod 8 = s0 - 240) by (Z.div_mod_to_equations; lia).
  rewrite E0. rewrite (Z.shiftl_mul_pow2 (s1 - 128)) by lia.
  rewrite (Z.shiftl_mul_pow2 (s2 - 128)) by lia.
  change (2 ^ 6) with 64. change (2 ^ 12) with 4096.
  rewrite lor_shiftl_small by (change (2 ^ 18) with 262144; lia).
  change (2 ^ 18) with 262144.
  replace ((s0 - 240) * 262144 + (s1 - 128) * 4096)
    with (Z.shiftl ((s0 - 240) * 64 + (s1 - 128)) 12)
    by (rewrite Z.shiftl_mul_pow2 by lia; change (2 ^ 12) with 4096; lia).
  rewrite lor_shiftl_small by (change (2 ^ 12) with 4096; lia).
  change (2 ^ 12) with 4096.
  replace (((s0 - 240) * 64 + (s1 - 128)) * 4096 + (s2 - 128) * 64)
    with (Z.shiftl (((s0 - 240) * 64 + (s1 - 128)) * 64 + (s2 - 128)) 6)
    by (rewrite Z.shiftl_mul_pow2 by lia; change (2 ^ 6) with 64; lia).
  rewrite lor_shiftl_small by (change (2 ^ 6) with 64; lia).
  rewrite ?Z.shiftl_mul_pow2 by lia.
  change (2 ^ 6) with 64. change (2 ^ 12) with 4096. lia.
Qed.

(** The classes of a first byte. *)
Lemma first_cases s0 :
  (s0 < 128 /\ first s0 = 240) \/ first s0 = 241 \/
  (194 <= s0 <= 223 /\ first s0 = 2) \/
  (s0 = 224 /\ first s0 = 19) \/
  (225 <= s0 <= 239 /\ first s0 = 3) \/
  (s0 = 237 /\ first s0 = 35) \/
  (s0 = 240 /\ first s0 = 52) \/
  (241 <= s0 <= 243 /\ first s0 = 4) \/
  (s0 = 244 /\ first s0 = 68).
Proof.
  unfold first.
  repeat match goal with
         | |- context [?a <? ?b] => destruct (Z.ltb_spec a b)
         | |- context [?a =? ?b] => destruct (Z.eqb_spec a b)
         end; lia || auto 10 with zarith.
Qed.

(** Split the decoding in [H] along its tests. *)
Ltac decode_split H :=
  repeat match type of H with
         | (if ?c then _ else _) = _ =>
             let E := fresh "E" in destruct c eqn:E
         | match ?l with [] => _ | _ :: _ => _ end = _ => destruct l
         end.

(** Put the first byte's class [v] into the decoding in [H]. *)
Ltac decode_class H v :=
  let sz := eval vm_compute in (Z.land v 7) in
  let ac := eval vm_compute in (acceptRanges (Z.shiftr v 4)) in
  let c0 := eval vm_compute in (240 <=? v) in
  let c1 := eval vm_compute in (v =? 240) in
  let c2 := eval vm_compute in (sz <=? 2) in
  let c3 := eval vm_compute in (sz <=? 3) in
  change (Z.land v 7) with sz in H;
  change (acceptRanges (Z.shiftr v 4)) with ac in H;
  change (240 <=? v) with c0 in H;
  change (v =? 240) with c1 in H;
  change (sz <=? 2) with c2 in H;
  change (sz <=? 3) with c3 in H;
  cbv beta iota in H; cbn [fst snd] in H.

(** Close a leaf of the decoding: the rune is the linear expression [L]
    of the bytes, and a space. *)
Ltac space_leaf Hr :=
  apply IsSpace_runes in Hr; cbn [In] in Hr;
  repeat (destruct Hr as [Hr | Hr]);
  try contradiction;
  first
    [ exfalso; lia
    | rewrite <- Hr;
      match goal with
      | |- context [EncodeRune ?z] =>
          let v := eval vm_compute in (EncodeRune z) in
          change (EncodeRune z) with v
      end;
      eexists; split; [cbn [app]; repeat (f_equal; try lia) | reflexivity] ].

(** A space is decoded only from its own encoding. *)
Lemma DecodeRuneInString_space_inv s r size :
  DecodeRuneInString s = (r, size) -> IsSpace r = true ->
  exists t, s = EncodeRune r ++ t /\ size = length (EncodeRune r).
Proof.
  intros H Hr. destruct s as [| s0 t0].
  { injection H as <- <-. discriminate Hr. }
  unfold DecodeRuneInString in H. cbv zeta in H.
  unfold continuation, locb, hicb in H.
  destruct (first_cases s0)
    as [[H0 Hf] | [Hf | [[H0 Hf] | [[H0 Hf] | [[H0 Hf] | [[H0 Hf] |
        [[H0 Hf] | [[H0 Hf] | [H0 Hf]]]]]]]]];
    rewrite Hf in H.
  - decode_class H 240. injection H as <- <-.
    exists t0. unfold EncodeRune.
    replace (s0 <=? 127) with true by (symmetry; apply Z.leb_le; lia).
    auto.
  - decode_class H 241. injection H as <- <-. discriminate Hr.
  - decode_class H 2. decode_split H; injection H as <- <-;
      try discriminate Hr.
    apply orb_false_iff in E0 as [Ea Eb]. apply Z.ltb_ge in Ea, Eb.
    rewrite rune_of_2 in * by lia. space_leaf Hr.
  - decode_class H 19. decode_split H; injection H as <- <-;
      try discriminate Hr.
    apply orb_false_iff in E0 as [Ea Eb]. apply Z.ltb_ge in Ea, Eb.
    apply negb_false_iff, andb_true_iff in E1 as [Ec Ed].
    apply Z.leb_le in Ec, Ed.
    rewrite rune_of_3 in * by lia. space_leaf Hr.
  - decode_class H 3. decode_split H; injection H as <- <-;
      try discriminate Hr.
    apply orb_false_iff in E0 as [Ea Eb]. apply Z.ltb_ge in Ea, Eb.
    apply negb_false_iff, andb_true_iff in E1 as [Ec Ed].
    apply Z.leb_le in Ec, Ed.
    rewrite rune_of_3 in * by lia. space_leaf Hr.
  - decode_class H 35. decode_split H; injection H as <- <-;
      try discriminate Hr.
    apply orb_false_iff in E0 as [Ea Eb]. apply Z.ltb_ge in Ea, Eb.
    apply negb_false_iff, andb_true_iff in E1 as [Ec Ed].
    apply Z.leb_le in Ec, Ed.
    rewrite rune_of_3 in * by lia. space_leaf Hr.
  - decode_class H 52. decode_split H; injection H as <- <-;
      try discriminate Hr.
    apply orb_false_iff in E0 as [Ea Eb]. apply Z.ltb_ge in Ea, Eb.
    apply negb_false_iff, andb_true_iff in E1 as [Ec Ed].
    apply Z.leb_le in Ec, Ed.
    apply negb_false_iff, andb_true_iff in E2 as [Ee Eg].
    apply Z.leb_le in Ee, Eg.
    rewrite rune_of_4 in * by lia. space_leaf Hr.
  - decode_class H 4. decode_split H; injection H as <- <-;
      try discriminate Hr.
    apply orb_false_iff in E0 as [Ea Eb]. apply Z.ltb_ge in Ea, Eb.
    apply negb_false_iff, andb_true_iff in E1 as [Ec Ed].
    apply Z.leb_le in Ec, Ed.
    apply negb_false_iff, andb_true_iff in E2 as [Ee Eg].
    apply Z.leb_le in Ee, Eg.
    rewrite rune_of_4 in * by lia. space_leaf Hr.
  - decode_class H 68. decode_split H; injection H as <- <-;
      try discriminate Hr.
    apply orb_false_iff in E0 as [Ea Eb]. apply Z.ltb_ge in Ea, Eb.
    apply negb_false_iff, andb_true_iff in E1 as [Ec Ed].
    apply Z.leb_le in Ec, Ed.
    apply negb_false_iff, andb_true_iff in E2 as [Ee Eg].
    apply Z.leb_le in Ee, Eg.
    rewrite rune_of_4 in * by lia. space_leaf Hr.
Qed.

(** What the left trim removes is a sequence of spaces, and it stops at a
    rune that is not a space. *)
Lemma trimLeftSpace_inv n s :
  (length s <= n)%nat ->
  exists rs,
    Forall (fun r => IsSpace r = true) rs /\
    s = concat (map EncodeRune rs) ++ trimLeftSpace n s /\
    (trimLeftSpace n s = [] \/
     IsSpace (fst (DecodeRuneInString (trimLeftSpace n s))) = false).
Proof.
  revert s. induction n as [| n IH]; intros s Hn.
  - destruct s; [| cbn in Hn; lia]. exists []. cbn. auto.
  - cbn [trimLeftSpace]. destruct s as [| b s']; [exists []; cbn; auto |].
    set (s := b :: s') in *.
    destruct (DecodeRuneInString s) as [r size] eqn:Ed.
    destruct (IsSpace r) eqn:Hr.
    + destruct (DecodeRuneInString_space_inv s r size Ed Hr) as (t & Es & ->).
      destruct (DecodeRuneInString_space r t Hr) as [_ Hpos].
      rewrite Es, skipn_app, skipn_all, Nat.sub_diag. cbn [app].
      change (skipn 0 t) with t.
      destruct (IH t) as (rs & Hrs & Et & Hstop).
      { rewrite Es, length_app in Hn. lia. }
      exists (r :: rs). split; [now constructor |]. cbn [map concat].
      rewrite <- app_assoc, <- Et. auto.
    + exists []. split; [constructor |]. split; [reflexivity |].
      right. now rewrite Ed.
Qed.

(** Where the last rune of [s] is a space it is a whole encoding, and when
    it is all of [s], [s] decodes to it. *)
Lemma DecodeLastRuneInString_space s r size :
  s <> [] ->
  DecodeLastRuneInString s = (r, size) -> IsSpace r = true ->
  (size <= length s)%nat /\
  (size = length s -> DecodeRuneInString s = (r, size)).
Proof.
  intros Hs H Hr. unfold DecodeLastRuneInString in H.
  assert (Hlen : (0 < length s)%nat) by (destruct s; cbn; [congruence | lia]).
  destruct (Z.eqb_spec (Z.of_nat (length s)) 0) as [E | _]; [lia |].
  destruct (Z.ltb_spec (nth (Z.to_nat (Z.of_nat (length s) - 1)) s 0) RuneSelf)
    as [Hlast | Hlast].
  - injection H as <- <-. split; [lia |]. intros E.
    destruct s as [| b [| c s]]; try discriminate E.
    change (nth _ [b] 0) with b in *. now apply DecodeRuneInString_ascii.
  - set (start := Z.max 0 _) in H.
    destruct (DecodeRuneInString (skipn (Z.to_nat start) s))
      as [r' size'] eqn:Ed.
    destruct (Z.eqb_spec (start + Z.of_nat size') (Z.of_nat (length s)))
      as [E | _]; cbn [negb] in H.
    + injection H as <- <-.
      assert (0 <= start) by (subst start; lia).
      split; [lia |]. intros E'.
      replace (skipn (Z.to_nat start) s) with s in Ed
        by (replace start with 0 by lia; reflexivity).
      exact Ed.
    + injection H as <- <-. discriminate Hr.
Qed.

(** The right trim does not pass a rune that is not a space. *)
Lemma trimRightSpace_stops l n k :
  IsSpace (fst (DecodeRuneInString l)) = false ->
  (1 <= k <= length l)%nat ->
  trimRightSpace n (firstn k l) <> [].
Proof.
  intros Hl. revert k. induction n as [| n IH]; intros k Hk.
  - cbn. destruct l; cbn in Hk; [lia |]. destruct k; [lia | discriminate].
  - assert (Hs : firstn k l <> []).
    { destruct l; cbn in Hk; [lia |]. destruct k; [lia | discriminate]. }
    assert (Hlen : length (firstn k l) = k) by (apply firstn_length_le; lia).
    cbn [trimRightSpace]. destruct (firstn k l) as [| b s'] eqn:Ek;
      [congruence |]. rewrite <- Ek in *.
    destruct (DecodeLastRuneInString (firstn k l)) as [r size] eqn:Ed.
    destruct (IsSpace r) eqn:Hr; [| exact Hs].
    destruct (DecodeLastRuneInString_space _ r size Hs Ed Hr) as [Hle Hall].
    rewrite Hlen in *.
    assert (Hlt : (size < k)%nat).
    { destruct (Nat.eq_dec size k) as [E | E]; [| lia]. exfalso.
      specialize (Hall E).
      destruct (DecodeRuneInString_space_inv _ r size Hall Hr)
        as (t & Et & Esz).
      assert (El : l = EncodeRune r ++ (t ++ skipn k l)).
      { rewrite app_assoc, <- Et. symmetry. apply firstn_skipn. }
      rewrite El in Hl.
      destruct (DecodeRuneInString_space r (t ++ skipn k l) Hr) as [Hd _].
      rewrite Hd in Hl. cbn in Hl. congruence. }
    rewrite firstn_firstn.
    replace (Init.Nat.min (k - size) k) with (k - size)%nat by lia.
    apply IH. lia.
Qed.

(** [TrimSpace] gives the empty string exactly for the strings that are
    empty or made of white space only. *)
Lemma TrimSpace_empty_iff s : TrimSpace s = "" <-> only_whitespace s.
Proof.
  split; [| apply TrimSpace_only_whitespace].
  intros H. unfold TrimSpace in H.
  set (b := bytes_of_string s) in *.
  destruct (trimLeftSpace_inv (length b) b (le_n _)) as (rs & Hrs & Eb & Hl).
  set (l := trimLeftSpace (length b) b) in *.
  destruct l as [| c l'] eqn:El'.
  - exists rs. split; [exact Hrs |]. fold b. now rewrite app_nil_r in Eb.
  - exfalso. rewrite <- El' in *.
    destruct Hl as [Hl | Hstop]; [congruence |].
    assert (Hne : trimRightSpace (length l) l <> []).
    { rewrite <- (firstn_all l) at 2.
      apply trimRightSpace_stops; [exact Hstop |].
      rewrite El'. cbn. lia. }
    destruct (trimRightSpace (length l) l); [congruence | discriminate H].
Qed.

Lemma executeCommand_makes_a_call d command onlyVerifyResponse r :
  ~ run (executeCommand d command onlyVerifyResponse) [] r.
Proof.
  intros H. apply executeCommand_iff, device_session_iff in H
    as (tr0 & r0 & rest & H0 & E & _).
  symmetry in E. apply app_eq_nil in E as [-> _]. inversion H0.
Qed.

(** X19: [RunShellCommandWithBytes] returns without a single call exactly when
    the command with its arguments is empty or made of white space only
    (Unicode white space in UTF-8); every other command reaches the
    server. *)
Theorem shell_not_called_iff_blank d cmd args :
  (exists r, run (RunShellCommandWithBytes d cmd args) [] r) <->
  only_whitespace (shell_command cmd args).
Proof.
  rewrite <- TrimSpace_empty_iff. split.
  - intros (r & H).
    destruct (String.eqb_spec (TrimSpace (shell_command cmd args)) "")
      as [E | E]; [exact E |].
    apply RunShellCommandWithBytes_not_blank in H; [| exact E].
    now apply executeCommand_makes_a_call in H.
  - intros E. exists (None, Some "adb shell: command cannot be empty").
    unfold RunShellCommandWithBytes. rewrite shell_command_eq, E. cbn.
    now apply run_Ret_iff.
Qed.

(** A no-break space alone is blank; a lone byte of it is not. *)
Example blank_nbsp :
  TrimSpace (string_of_byte_list [194; 160]) = "" /\
  TrimSpace (string_of_byte_list [194]) <> "".
Proof. split; [reflexivity | discriminate]. Qed.

(** ** Running applications *)

Example packageNames_of_pm_list :
  packageNames_of
    "package:com.android.settings
package:com.example.app
package: stray
"
  = ["com.android.settings"; "com.example.app"].
Proof. vm_compute. reflexivity. Qed.

Example processNames_of_ps :
  processNames_of
    "USER  PID  NAME
u0_a1  812  com.example.app
root   1    init   
"
  = ["NAME"; "com.example.app"].
Proof. vm_compute. reflexivity. Qed.

Lemma span_S_name s name rest :
  span_S s = (name, rest) ->
  s = name +:+ rest /\ Forall (fun c => is_S c = true) (list_ascii_of_string name).
Proof.
  revert name rest. induction s as [| c s IH]; intros name rest H; cbn in H.
  - injection H as <- <-. split; [reflexivity | constructor].
  - destruct (is_S c) eqn:Ec.
    + destruct (span_S s) as [name' rest'] eqn:Es.
      injection H as <- <-. destruct (IH name' rest' eq_refl) as [-> Hn].
      split; [reflexivity | now constructor].
    + injection H as <- <-. split; [reflexivity | constructor].
Qed.

Lemma find_packages_names fuel s : Forall is_name (find_packages fuel s).
Proof.
  revert s. induction fuel as [| fuel IH]; intros s; cbn [find_packages];
    [constructor |].
  destruct s as [| c t]; [constructor |].
  destruct (strip_prefix "package:" (String c t)) as [after |]; [| apply IH].
  destruct (span_S after) as [name rest] eqn:Es.
  destruct name as [| a name]; [apply IH |].
  constructor; [| apply IH]. split; [discriminate |].
  now apply span_S_name in Es as [_ Hn].
Qed.

Lemma running_of_elements packageNames processNames :
  elements (running_of packageNames processNames)
  = List.filter (fun pkg => existsb (String.eqb pkg) processNames)
      packageNames.
Proof.
  unfold running_of.
  assert (H : forall acc,
             elements
               (fold_left
                  (fun result pkg =>
                     if existsb (String.eqb pkg) processNames
                     then append result pkg else result)
                  packageNames acc)
             = elements acc ++
               List.filter (fun pkg => existsb (String.eqb pkg) processNames)
                 packageNames).
  { induction packageNames as [| p l IH]; intros acc; cbn.
    - now rewrite app_nil_r.
    - rewrite IH. destruct (existsb (String.eqb p) processNames);
        [| reflexivity].
      destruct acc; cbn; rewrite <- ?app_assoc; reflexivity. }
  apply (H None).
Qed.

Lemma running_of_not_empty packageNames processNames names :
  running_of packageNames processNames = Some names -> names <> [].
Proof.
  unfold running_of. intros H Hn. subst names.
  assert (Hacc : forall l (acc : slice string),
             acc <> Some [] ->
             fold_left
               (fun result pkg =>
                  if existsb (String.eqb pkg) processNames
                  then append result pkg else result) l acc <> Some []).
  { induction l as [| p l IH]; intros acc Hacc; cbn; [exact Hacc |].
    apply IH. destruct (existsb (String.eqb p) processNames); [| exact Hacc].
    destruct acc as [[| x acc] |]; cbn; congruence. }
  now apply (Hacc packageNames None).
Qed.

Lemma AppListRunning_runs d tr r :
  run (AppListRunning d) tr r <->
  exists tr1 raw1 err1,
    run (executeCommand d "shell:pm list packages" []) tr1 (raw1, err1) /\
    match err1 with
    | Some _ => tr = tr1 /\ r = None
    | None =>
      exists tr2 raw2 err2,
        run (executeCommand d "shell:ps; ps -A" []) tr2 (raw2, err2) /\
        tr = tr1 ++ tr2 /\
        r = match err2 with
            | Some _ => None
            | None =>
              running_of (packageNames_of (string_of_bytes raw1))
                (processNames_of (string_of_bytes raw2))
            end
    end.
Proof.
  unfold AppListRunning. rewrite run_bind_iff. split.
  - intros (tr1 & [out1 err1] & tr' & -> & H1 & H2).
    apply RunShellCommand_plain in H1 as (raw1 & H1 & E1); [| reflexivity].
    cbn in H1, E1, H2. subst out1. exists tr1, raw1, err1.
    split; [exact H1 |]. destruct err1 as [e |].
    + run_next H2. now rewrite app_nil_r.
    + apply run_bind_iff in H2 as (tr2 & [out2 err2] & tr'' & -> & H2 & H3).
      apply RunShellCommand_plain in H2 as (raw2 & H2 & E2); [| reflexivity].
      cbn in H2, E2, H3. subst out2. exists tr2, raw2, err2.
      split; [exact H2 |].
      destruct err2 as [e |]; run_next H3; now rewrite app_nil_r.
  - intros (tr1 & raw1 & err1 & H1 & H).
    exists tr1, (string_of_bytes raw1, err1).
    destruct err1 as [e |].
    + destruct H as [-> ->]. exists []. rewrite app_nil_r. repeat split.
      * apply RunShellCommand_plain; [reflexivity | eauto].
      * cbn. now apply run_Ret_iff.
    + destruct H as (tr2 & raw2 & err2 & H2 & -> & ->). exists tr2.
      repeat split.
      * apply RunShellCommand_plain; [reflexivity | eauto].
      * cbn. apply run_bind_iff.
        exists tr2, (string_of_bytes raw2, err2), []. rewrite app_nil_r.
        repeat split.
        -- apply RunShellCommand_plain; [reflexivity | eauto].
        -- cbn. destruct err2; now apply run_Ret_iff.
Qed.

(** X20: [AppListRunning] (on a non-nil device) runs [pm list packages] and,
    only when that succeeded, [ps; ps -A] in the shell of the device.  It
    returns nil when either command fails; otherwise it returns, in the
    order of the package list and with its repetitions, the package names
    that are the last word of some line of the process list. *)
Theorem AppListRunning_iff d tr r :
  run (AppListRunning d) tr r <->
  exists tr1 raw1 err1,
    run (executeCommand d "shell:pm list packages" []) tr1 (raw1, err1) /\
    match err1 with
    | Some _ => tr = tr1 /\ r = None
    | None =>
      exists tr2 raw2 err2,
        run (executeCommand d "shell:ps; ps -A" []) tr2 (raw2, err2) /\
        tr = tr1 ++ tr2 /\
        match err2 with
        | Some _ => r = None
        | None =>
          elements r
          = List.filter
              (fun pkg =>
                 existsb (String.eqb pkg)
                   (processNames_of (string_of_bytes raw2)))
              (packageNames_of (string_of_bytes raw1)) /\
          r <> Some []
        end
    end.
Proof.
  rewrite AppListRunning_runs. split.
  - intros (tr1 & raw1 & [e |] & H1 & H); exists tr1, raw1; eexists;
      (split; [exact H1 |]); [exact H |].
    destruct H as (tr2 & raw2 & [e |] & H2 & -> & ->);
      exists tr2, raw2; eexists; (split; [exact H2 |]);
      (split; [reflexivity |]); [reflexivity |].
    split; [apply running_of_elements |].
    intros E. now apply running_of_not_empty in E.
  - intros (tr1 & raw1 & [e |] & H1 & H); exists tr1, raw1; eexists;
      (split; [exact H1 |]); [exact H |].
    destruct H as (tr2 & raw2 & [e |] & H2 & -> & H);
      exists tr2, raw2; eexists; (split; [exact H2 |]);
      (split; [reflexivity |]); [exact H |].
    destruct H as [E Hne].
    pose proof (running_of_elements (packageNames_of (string_of_bytes raw1))
                  (processNames_of (string_of_bytes raw2))) as E'.
    rewrite <- E in E'.
    destruct (running_of _ _) as [l |] eqn:Er, r as [l' |]; cbn in E';
      subst; try reflexivity.
    + now apply running_of_not_empty in Er.
    + congruence.
Qed.

(** X21: Every name that [AppListRunning] returns is not empty and holds no
    white space, and the list it returns is nil rather than empty. *)
Theorem AppListRunning_names d tr names :
  run (AppListRunning d) tr (Some names) ->
  names <> [] /\ Forall is_name names.
Proof.
  intros H. apply AppListRunning_runs in H
    as (tr1 & raw1 & [e |] & _ & H); [destruct H as [_ [=]] |].
  destruct H as (tr2 & raw2 & [e |] & _ & _ & H); [discriminate H |].
  symmetry in H. split; [now apply running_of_not_empty in H |].
  pose proof (running_of_elements (packageNames_of (string_of_bytes raw1))
                (processNames_of (string_of_bytes raw2))) as E.
  rewrite H in E. cbn in E. rewrite E.
  apply List.Forall_forall. intros name Hin.
  apply filter_In in Hin as [Hin _].
  pose proof (find_packages_names
                (String.length (string_of_bytes raw1))
                (string_of_bytes raw1)) as Hall.
  rewrite List.Forall_forall in Hall. now apply Hall.
Qed.

Lemma AppListRunning_names_witness :
  run (AppListRunning dev0)
    ((selected dev0 tp0 ++
      [Step (Transport_Send tp0 "shell:pm list packages") None;
       Step (Transport_VerifyResponse tp0) None;
       Step (Transport_ReadBytesAll tp0)
         (Some "package:com.example.app
package:com.example.idle
", None);
       Step (Transport_Close tp0) None]) ++
     (selected dev0 tp0 ++
      [Step (Transport_Send tp0 "shell:ps; ps -A") None;
       Step (Transport_VerifyResponse tp0) None;
       Step (Transport_ReadBytesAll tp0)
         (Some "u0_a1 812 com.example.app
", None);
       Step (Transport_Close tp0) None]))
    (Some ["com.example.app"]) /\
  ["com.example.app"] <> [] /\
  Forall is_name ["com.example.app"].
Proof.
  assert (H : run (AppListRunning dev0)
                ((selected dev0 tp0 ++
                  [Step (Transport_Send tp0 "shell:pm list packages") None;
                   Step (Transport_VerifyResponse tp0) None;
                   Step (Transport_ReadBytesAll tp0)
                     (Some "package:com.example.app
package:com.example.idle
", None);
                   Step (Transport_Close tp0) None]) ++
                 (selected dev0 tp0 ++
                  [Step (Transport_Send tp0 "shell:ps; ps -A") None;
                   Step (Transport_VerifyResponse tp0) None;
                   Step (Transport_ReadBytesAll tp0)
                     (Some "u0_a1 812 com.example.app
", None);
                   Step (Transport_Close tp0) None]))
                (Some ["com.example.app"])).
  { apply exec_run with
      (fuel := 100%nat)
      (answers :=
         [V_transport (tp0, None); V_error None; V_error None; V_error None;
          V_error None;
          V_bytes (Some "package:com.example.app
package:com.example.idle
", None); V_error None;
          V_transport (tp0, None); V_error None; V_error None; V_error None;
          V_error None;
          V_bytes (Some "u0_a1 812 com.example.app
", None); V_error None]).
    vm_compute. reflexivity. }
  split; [exact H |].
  exact (AppListRunning_names dev0 _ _ H).
Defined.

Lemma terminate_each_iff d excludePackages runningApps tr u :
  run (terminate_each d excludePackages runningApps) tr u <->
  exists trs,
    tr = concat trs /\
    Forall2 (fun pkg tr' => exists err, run (AppTerminate d pkg) tr' err)
      (List.filter (fun r => negb (contains excludePackages r)) runningApps)
      trs.
Proof.
  revert tr. induction runningApps as [| r rest IH]; intros tr;
    cbn [terminate_each List.filter].
  - rewrite run_Ret_iff. split.
    + intros [-> _]. exists []. split; [reflexivity | constructor].
    + intros (trs & -> & H). inversion H. destruct u. auto.
  - destruct (negb (contains excludePackages r)); [| apply IH].
    rewrite run_bind_iff. split.
    + intros (tr1 & err & tr2 & -> & H1 & H2).
      apply IH in H2 as (trs & -> & H2).
      exists (tr1 :: trs). split; [reflexivity |]. constructor; eauto.
    + intros (trs & -> & H). inversion H as [| ? tr1 ? trs' [err H1] H2]; subst.
      exists tr1, err, (concat trs'). repeat split; [exact H1 |].
      apply IH. eauto.
Qed.

(** X22: [AppTerminateAll] (on a non-nil device) lists the running
    applications and then terminates, in the order of that list, each one
    that is not among the excluded packages, whatever the earlier
    terminations returned; no excluded package is terminated. *)
Theorem AppTerminateAll_iff d excludePackages tr u :
  run (AppTerminateAll d excludePackages) tr u <->
  exists tr0 runningApps trs,
    run (AppListRunning d) tr0 runningApps /\
    tr = tr0 ++ concat trs /\
    Forall2 (fun pkg tr' => exists err, run (AppTerminate d pkg) tr' err)
      (List.filter (fun r => negb (contains excludePackages r))
         (elements runningApps))
      trs.
Proof.
  unfold AppTerminateAll. rewrite run_bind_iff. split.
  - intros (tr0 & runningApps & tr1 & -> & H0 & H1).
    apply terminate_each_iff in H1 as (trs & -> & H1). eauto 6.
  - intros (tr0 & runningApps & trs & H0 & -> & H1).
    exists tr0, runningApps, (concat trs). repeat split; [exact H0 |].
    apply terminate_each_iff. eauto.
Qed.

(** Two packages run; the excluded one is left alone. *)
Example AppTerminateAll_exec :
  exec 200 (AppTerminateAll dev0 ["com.example.keep"])
    [V_transport (tp0, None); V_error None; V_error None; V_error None;
     V_error None;
     V_bytes (Some "package:com.example.app
package:com.example.keep
", None); V_error None;
     V_transport (tp0, None); V_error None; V_error None; V_error None;
     V_error None;
     V_bytes (Some "u0_a1 812 com.example.app
u0_a2 813 com.example.keep
", None); V_error None;
     V_transport (tp0, None); V_error None; V_error None; V_error None;
     V_error None;
     V_bytes (None, None); V_error None]
  = Some
      ((selected dev0 tp0 ++
        [Step (Transport_Send tp0 "shell:pm list packages") None;
         Step (Transport_VerifyResponse tp0) None;
         Step (Transport_ReadBytesAll tp0)
           (Some "package:com.example.app
package:com.example.keep
", None);
         Step (Transport_Close tp0) None]) ++
       (selected dev0 tp0 ++
        [Step (Transport_Send tp0 "shell:ps; ps -A") None;
         Step (Transport_VerifyResponse tp0) None;
         Step (Transport_ReadBytesAll tp0)
           (Some "u0_a1 812 com.example.app
u0_a2 813 com.example.keep
", None);
         Step (Transport_Close tp0) None]) ++
       (selected dev0 tp0 ++
        [Step (Transport_Send tp0 "shell:am force-stop com.example.app")
           None;
         Step (Transport_VerifyResponse tp0) None;
         Step (Transport_ReadBytesAll tp0) (None, None);
         Step (Transport_Close tp0) None]),
       tt).
Proof. vm_compute. reflexivity. Qed.
